(** * imageCropper: grayscale, centre crop and tone adjustment of PPM images

    A shallow embedding of [src/boxFilterNPP/imageCropper.cu].

    - C [int] and [unsigned] values are integers of [Z] with the 32-bit
      wrap-around written out ([Int.wrap], [Int.uwrap]).
    - [float] is IEEE-754 binary32, taken from the parameterised
      specification of the standard library ([SpecFloat], precision 24,
      [emax] 128, round to nearest even).
    - A pixel buffer is a list of cells; a cell is a defined byte or an
      indeterminate value (fresh allocations, and the result of converting
      an out-of-range [float] to [unsigned char]).
    - A kernel launch runs the body of every thread of the grid; an access
      outside a buffer makes the launch undefined ([None]).
    - [main] is a function of the outside world (readable files, writable
      paths, failing CUDA calls) to the streams, files and exit status it
      produces. *)

From Stdlib Require Import ZArith Lia Bool Ascii String.
From Stdlib Require Import Floats.SpecFloat.
From stdpp Require Import base option list list_numbers strings pretty.

Local Open Scope Z_scope.

(** ** 32-bit integers *)

Module Int.

Definition INT_MAX : Z := 2147483647.
Definition modulus : Z := 4294967296.

(** Value of an [unsigned] expression. *)
Definition uwrap (z : Z) : Z := z mod modulus.

(** Value of an [int] expression (two's complement). *)
Definition wrap (z : Z) : Z := (z + 2147483648) mod modulus - 2147483648.

Definition add (a b : Z) : Z := wrap (a + b).
Definition mul (a b : Z) : Z := wrap (a * b).
Definition sub (a b : Z) : Z := wrap (a - b).
(** [/] on [int] truncates towards zero. *)
Definition div (a b : Z) : Z := wrap (Z.quot a b).

Definition uadd (a b : Z) : Z := uwrap (a + b).
Definition umul (a b : Z) : Z := uwrap (a * b).
Definition usub (a b : Z) : Z := uwrap (a - b).
Definition udiv (a b : Z) : Z := uwrap a / uwrap b.

End Int.

(** ** Single-precision floating point *)

Module F32.

Definition prec : Z := 24.
Definition emax : Z := 128.

Definition of_Z (n : Z) : spec_float := binary_normalize prec emax n 0 false.
Definition mul : spec_float -> spec_float -> spec_float := SFmul prec emax.
Definition add : spec_float -> spec_float -> spec_float := SFadd prec emax.
Definition div : spec_float -> spec_float -> spec_float := SFdiv prec emax.

(** Fused multiply-add [a * b + c]: the product is kept exact and the sum
    is rounded once. *)
Definition fma (a b c : spec_float) : spec_float :=
  match a, b, c with
  | S754_finite sa ma ea, S754_finite sb mb eb, S754_finite _ _ _ =>
      add (S754_finite (xorb sa sb) (ma * mb) (ea + eb)) c
  | _, _, _ => add (mul a b) c
  end.

Definition is_nan (f : spec_float) : bool :=
  match f with S754_nan => true | _ => false end.

(** [fminf] and [fmaxf], the [float] overloads of [min] and [max] in
    device code. *)
Definition fminf (a b : spec_float) : spec_float :=
  if is_nan a then b else if is_nan b then a
  else if SFleb a b then a else b.

Definition fmaxf (a b : spec_float) : spec_float :=
  if is_nan a then b else if is_nan b then a
  else if SFleb b a then a else b.

(** Integer part of a finite value, rounding towards zero; the conversion
    [float] to integer type. *)
Definition trunc (f : spec_float) : option Z :=
  match f with
  | S754_zero _ => Some 0
  | S754_finite s m e =>
      let a := match e with
               | Zneg p => Z.shiftr (Zpos m) (Zpos p)
               | _ => Z.shiftl (Zpos m) e
               end in
      Some (if s then - a else a)
  | _ => None
  end.

(** The literals of the source, as binary32 values. *)
Definition c0_299 : spec_float := S754_finite false 10032775 (-25).
Definition c0_587 : spec_float := S754_finite false 9848226 (-24).
Definition c0_114 : spec_float := S754_finite false 15300821 (-27).
Definition c1_1 : spec_float := S754_finite false 9227469 (-23).
Definition c1_05 : spec_float := S754_finite false 8808038 (-23).
Definition c255 : spec_float := S754_finite false 16711680 (-16).
Definition c0 : spec_float := S754_zero false.

End F32.

(** ** Pixel cells and buffers *)

(** An [unsigned char] object: a byte, or indeterminate. *)
Inductive cell : Type :=
  | Def (v : Z)
  | Indet.

Abbreviation buffer := (list cell).

(** [buf[i]] for an [int] index; [None] outside the buffer. *)
Definition load (buf : buffer) (i : Z) : option cell :=
  if 0 <=? i then buf !! Z.to_nat i else None.

(** [buf[i] = v]; [None] outside the buffer. *)
Definition store (buf : buffer) (i : Z) (v : cell) : option buffer :=
  if (0 <=? i) && (i <? Z.of_nat (length buf))
  then Some (<[Z.to_nat i := v]> buf) else None.

Definition is_indet (c : cell) : bool :=
  match c with Indet => true | Def _ => false end.

(** [unsigned char] to [float], through the promotion to [int]. *)
Definition float_of_uchar (v : Z) : spec_float := F32.of_Z v.

(** [float] to [unsigned char]: the truncated value when it fits, and no
    defined value otherwise. *)
Definition uchar_of_float (f : spec_float) : cell :=
  match F32.trunc f with
  | Some z => if (0 <=? z) && (z <=? 255) then Def z else Indet
  | None => Indet
  end.

(** ** Launch geometry *)

(** [dim3] with the third component left at its default 1. *)
Record dim3 : Type := Dim3 { dim_x : Z; dim_y : Z }.

Record thread : Type := Thread {
  blockIdx : dim3;
  blockDim : dim3;
  threadIdx : dim3
}.

(** [blockIdx.x * blockDim.x + threadIdx.x] stored in an [int]. *)
Definition thread_x (t : thread) : Z :=
  Int.wrap (Int.uadd (Int.umul (dim_x (blockIdx t)) (dim_x (blockDim t)))
                     (dim_x (threadIdx t))).

Definition thread_y (t : thread) : Z :=
  Int.wrap (Int.uadd (Int.umul (dim_y (blockIdx t)) (dim_y (blockDim t)))
                     (dim_y (threadIdx t))).

(** Every thread of a launch [<<<gridDim, blockDim>>>]. *)
Definition launch_threads (gridDim blockDim : dim3) : list thread :=
  by_ ← seqZ 0 (dim_y gridDim);
  bx ← seqZ 0 (dim_x gridDim);
  ty ← seqZ 0 (dim_y blockDim);
  tx ← seqZ 0 (dim_x blockDim);
  [Thread (Dim3 bx by_) blockDim (Dim3 tx ty)].

(** A kernel is the body run by one thread on the buffer it writes. *)
Definition kernel : Type := thread → buffer → option buffer.

Fixpoint run_threads (k : kernel) (ts : list thread) (m : buffer)
  : option buffer :=
  match ts with
  | [] => Some m
  | t :: ts' => m' ← k t m; run_threads k ts' m'
  end.

(** [k<<<gridDim, blockDim>>>(...)]: every thread of the grid runs once. The
    threads are run one after the other; for the kernels here the order
    makes no difference ([run_threads_schedule]). Limits of the device on
    the size of a grid are not part of the embedding. *)
Definition launch (k : kernel) (gridDim blockDim : dim3) (m : buffer)
  : option buffer :=
  run_threads k (launch_threads gridDim blockDim) m.

(** ** The three kernels *)

(** How the compiler may contract [a * b + c] into one fused operation in
    [0.299f * r + 0.587f * g + 0.114f * b]. The language leaves this open
    and the results differ in the last bit, so the embedding keeps every
    choice: the inner sum with no fusion or with either product fused, the
    outer sum with or without its product fused. *)
Inductive inner_contract : Type := InnerNone | InnerLeft | InnerRight.

Record fp_contract : Type := FpContract {
  inner : inner_contract;
  outer : bool
}.

(** Every operation rounded on its own. *)
Definition fp_strict : fp_contract := FpContract InnerNone false.

Definition rgbToGray_value (c : fp_contract) (r g b : Z) : spec_float :=
  let fr := float_of_uchar r in
  let fg := float_of_uchar g in
  let fb := float_of_uchar b in
  let s := match inner c with
           | InnerNone => F32.add (F32.mul F32.c0_299 fr) (F32.mul F32.c0_587 fg)
           | InnerLeft => F32.fma F32.c0_299 fr (F32.mul F32.c0_587 fg)
           | InnerRight => F32.fma F32.c0_587 fg (F32.mul F32.c0_299 fr)
           end in
  if outer c then F32.fma F32.c0_114 fb s
  else F32.add s (F32.mul F32.c0_114 fb).

(** The byte stored in [gray[idx]] from the three bytes read. *)
Definition rgbToGray_pixel (c : fp_contract) (r g b : cell) : cell :=
  match r, g, b with
  | Def r, Def g, Def b => uchar_of_float (rgbToGray_value c r g b)
  | _, _, _ => Indet
  end.

Definition rgbToGrayKernel (c : fp_contract) (rgb : buffer)
    (width height : Z) : kernel := λ t gray,
  let x := thread_x t in
  let y := thread_y t in
  let idx := Int.add (Int.mul y width) x in
  if (x <? width) && (y <? height) then
    let rgbIdx := Int.mul idx 3 in
    r ← load rgb rgbIdx;
    g ← load rgb (Int.add rgbIdx 1);
    b ← load rgb (Int.add rgbIdx 2);
    store gray idx (rgbToGray_pixel c r g b)
  else Some gray.

(** [int srcIdx = (y + offsetY) * srcWidth + (x + offsetX)] *)
Definition srcIdx (y offsetY srcWidth x offsetX : Z) : Z :=
  Int.add (Int.mul (Int.add y offsetY) srcWidth) (Int.add x offsetX).

Definition cropKernel (src : buffer)
    (srcWidth srcHeight dstWidth dstHeight offsetX offsetY : Z)
  : kernel := λ t dst,
  let x := thread_x t in
  let y := thread_y t in
  if (x <? dstWidth) && (y <? dstHeight) then
    let dstIdx := Int.add (Int.mul y dstWidth) x in
    v ← load src (srcIdx y offsetY srcWidth x offsetX);
    store dst dstIdx v
  else Some dst.

(** The value handed to [static_cast<unsigned char>] for a pixel. *)
Definition adjust_value (pixel : Z) : spec_float :=
  if pixel <=? 128
  then F32.fminf F32.c255 (F32.mul (float_of_uchar pixel) F32.c1_1)
  else F32.fmaxf F32.c0 (F32.mul (float_of_uchar pixel) F32.c1_05).

Definition adjust_pixel (pixel : cell) : cell :=
  match pixel with
  | Def p => uchar_of_float (adjust_value p)
  | Indet => Indet
  end.

Definition adjustShadowsHighlightsKernel (width height : Z) : kernel :=
  λ t img,
  let x := thread_x t in
  let y := thread_y t in
  let idx := Int.add (Int.mul y width) x in
  if (x <? width) && (y <? height) then
    pixel ← load img idx;
    store img idx (adjust_pixel pixel)
  else Some img.

(** ** The host program *)

Definition EXIT_SUCCESS : Z := 0.
Definition EXIT_FAILURE : Z := 1.

(** The line feed written as [\n] in the source. *)
Definition nl : string := String "010"%char "".

(** What [savePGM] puts in a file: the header text and the raw bytes. *)
Record pgm_file : Type := PgmFile { pgm_header : string; pgm_data : buffer }.

(** What the program does to the outside, in order. *)
Inductive event : Type :=
  | Stdout (text : string)
  | Stderr (text : string)
  | WriteFile (name : string) (content : pgm_file).

(** What the outside does to the program. *)
Record world : Type := World {
  (** the bytes of a file that can be opened for reading *)
  file_contents : string → option string;
  (** whether a path can be opened for writing *)
  can_create : string → bool;
  (** the diagnostic of the n-th checked CUDA call made for an input
      file, when that call fails *)
  cuda_fails : string → nat → option string
}.

(** How a piece of the program ends: normally, by an exception derived
    from [std::exception], by a call of [exit], or in a way the embedding
    does not cover (undefined behaviour, reads of a failed stream). *)
Inductive result (A : Type) : Type :=
  | Ret (a : A)
  | Throw (what : string)
  | Exit (status : Z)
  | Unmodelled.
Arguments Ret {A} a.
Arguments Throw {A} what.
Arguments Exit {A} status.
Arguments Unmodelled {A}.

Definition M (A : Type) : Type := list event * result A.

Global Instance M_ret : MRet M := λ A a, ([], Ret a).
Global Instance M_bind : MBind M := λ A B f m,
  match m with
  | (tr, Ret a) => let '(tr', r) := f a in (tr ++ tr', r)
  | (tr, Throw e) => (tr, Throw e)
  | (tr, Exit s) => (tr, Exit s)
  | (tr, Unmodelled) => (tr, Unmodelled)
  end.

Definition emit (e : event) : M unit := ([e], Ret tt).
Definition throw {A} (what : string) : M A := ([], Throw what).
Definition exit {A} (status : Z) : M A := ([], Exit status).
Definition unmodelled {A} : M A := ([], Unmodelled).

(** A launch or copy that leaves a buffer is undefined behaviour. *)
Definition defined {A} (o : option A) : M A :=
  match o with Some a => mret a | None => unmodelled end.

(** [try { body } catch (std::exception& e) { handler }] *)
Definition try_catch (body : M unit) (handler : string → M unit) : M unit :=
  match body with
  | (tr, Throw e) => let '(tr', r) := handler e in (tr ++ tr', r)
  | r => r
  end.

(** *** Stream extraction *)

Fixpoint skip_ws (s : string) : string :=
  match s with
  | String a s' => if Ascii.is_space a then skip_ws s' else s
  | EmptyString => EmptyString
  end.

Fixpoint take_word (s : string) : string * string :=
  match s with
  | String a s' =>
      if Ascii.is_space a then (EmptyString, s)
      else let '(w, r) := take_word s' in (String a w, r)
  | EmptyString => (EmptyString, EmptyString)
  end.

(** [file >> str]: the next white-space delimited word and the rest. *)
Definition read_word (s : string) : string * string := take_word (skip_ws s).

Fixpoint take_digits (acc : Z) (s : string) : Z * string :=
  match s with
  | String a s' =>
      match Ascii.is_nat a with
      | Some d => take_digits (10 * acc + Z.of_nat d) s'
      | None => (acc, s)
      end
  | EmptyString => (acc, EmptyString)
  end.

(** The digits of a numeral: at least one. *)
Definition read_unsigned (s : string) : option (Z * string) :=
  match s with
  | String a s' =>
      match Ascii.is_nat a with
      | Some _ => Some (take_digits 0 (String a s'))
      | None => None
      end
  | EmptyString => None
  end.

(** [file >> n] for a decimal numeral, with or without a sign, that fits
    an [int]; every other input puts the stream in its failed state, which
    is not modelled. *)
Definition read_int (s : string) : option (Z * string) :=
  match skip_ws s with
  | String a s' =>
      if decide (a = "-"%char) then
        '(v, r) ← read_unsigned s';
        if v <=? Int.INT_MAX + 1 then Some (- v, r) else None
      else
        '(v, r) ← read_unsigned
                    (if decide (a = "+"%char) then s' else String a s');
        if v <=? Int.INT_MAX then Some (v, r) else None
  | EmptyString => None
  end.

(** [file.ignore(n, delim)] *)
Fixpoint ignore (n : nat) (delim : ascii) (s : string) : string :=
  match n, s with
  | S n', String a s' => if decide (a = delim) then s' else ignore n' delim s'
  | _, _ => s
  end.

(** [new unsigned char[n]]: nothing is initialised. *)
Definition new_uchar (n : Z) : buffer := replicate (Z.to_nat n) Indet.

(** [file.read(data, n)] into a fresh array: the bytes that are there. *)
Fixpoint read_bytes (n : nat) (s : string) : buffer :=
  match n with
  | O => []
  | S n' =>
      match s with
      | String a s' => Def (Z.of_N (N_of_ascii a)) :: read_bytes n' s'
      | EmptyString => Indet :: read_bytes n' EmptyString
      end
  end.

(** [loadPPM]; a count [width * height * 3] that is negative or not a
    value of [int] is not modelled. *)
Definition loadPPM (w : world) (filename : string) : M (buffer * Z * Z) :=
  match file_contents w filename with
  | None => throw ("Unable to open file " +:+ filename)
  | Some file =>
      let '(magic, file) := read_word file in
      if decide (magic = "P6") then
        '(width, file) ← defined (read_int file);
        '(height, file) ← defined (read_int file);
        '(maxVal, file) ← defined (read_int file);
        let file := ignore 256 "010"%char file in
        if (0 <=? width * height * 3) && (width * height * 3 <=? Int.INT_MAX)
        then
          let data := read_bytes (Z.to_nat (width * height * 3)) file in
          mret (data, width, height)
        else unmodelled
      else throw "Invalid PPM file"
  end.

Definition savePGM (w : world) (filename : string) (data : buffer)
    (width height : Z) : M unit :=
  if can_create w filename then
    let n := Z.to_nat (Int.mul width height) in
    if decide (n ≤ length data)%nat then
      emit (WriteFile filename
        (PgmFile ("P5" +:+ nl +:+ pretty width +:+ " " +:+ pretty height
                    +:+ nl +:+ "255" +:+ nl)
                 (take n data)))
    else unmodelled
  else throw ("Unable to open file " +:+ filename).

(** *** Device memory *)

(** [cudaMalloc(&p, n)]: [n] bytes, not initialised. *)
Definition cudaMalloc (n : Z) : buffer := new_uchar n.

(** [cudaMemcpy(dst, src, count, kind)]: the first [count] bytes of [dst]
    become those of [src]; undefined when either buffer is shorter. *)
Definition cudaMemcpy (dst src : buffer) (count : Z) : option buffer :=
  let n := Z.to_nat count in
  if decide (n ≤ length src ∧ n ≤ length dst)%nat
  then Some (take n src ++ drop n dst) else None.

(** Modelled from the spec: [checkCudaErrors] is a macro of
    [helper_cuda.h], which is not among the sources. By sections 6 and 7 a
    device allocation or transfer that fails gives one diagnostic on the
    error stream and ends the process with a failure status; a call that
    succeeds goes on with its result. *)
Definition checkCudaErrors {A} (w : world) (file : string) (call : nat)
    (r : M A) : M A :=
  match cuda_fails w file call with
  | Some diagnostic => emit (Stderr diagnostic);; exit EXIT_FAILURE
  | None => r
  end.

(** *** The per-image pipeline of [main] *)

Definition blockSize : dim3 := Dim3 16 16.

(** [dim3 gridSize((width + blockSize.x - 1) / blockSize.x, ...)]; the
    arithmetic is [unsigned]. *)
Definition gridSize (width height : Z) : dim3 :=
  Dim3 (Int.udiv (Int.usub (Int.uadd width (dim_x blockSize)) 1)
                 (dim_x blockSize))
       (Int.udiv (Int.usub (Int.uadd height (dim_y blockSize)) 1)
                 (dim_y blockSize)).

(** The last six arguments of the [cropKernel] launch. *)
Record crop_args : Type := CropArgs {
  dstWidth : Z;
  dstHeight : Z;
  offsetX : Z;
  offsetY : Z
}.

Definition main_crop_args (width height : Z) : crop_args :=
  let shorterSide := Z.min width height in
  let longerSide := Z.max width height in
  let offset := Int.div (Int.sub longerSide shorterSide) 2 in
  CropArgs shorterSide shorterSide offset 0.

(** [s.find_last_of(c)]; [None] is [npos]. *)
Fixpoint find_last_of (c : ascii) (s : string) : option nat :=
  match s with
  | EmptyString => None
  | String a s' =>
      match find_last_of c s' with
      | Some i => Some (S i)
      | None => if decide (a = c) then Some O else None
      end
  end.

(** [s.substr(0, n)] *)
Definition substr0 (s : string) (n : option nat) : string :=
  match n with
  | Some n => substring 0 n s
  | None => s
  end.

Definition outputDir : string := "processed_images".

Definition outputFilename (sFilename : string) : string :=
  outputDir +:+ "/" +:+ substr0 sFilename (find_last_of "."%char sFilename)
    +:+ "_cropped_adjusted.pgm".

(** The body of the loop over the input files. The [delete[]] and
    [cudaFree] calls that end it have no effect that can be observed and
    are left out. *)
Definition processImage (c : fp_contract) (w : world) (sFilename : string)
  : M unit :=
  '(h_rgb, width, height) ← loadPPM w sFilename;
  let h_gray := new_uchar (Int.mul width height) in
  let check {A} := @checkCudaErrors A w sFilename in
  d_rgb ← check 0%nat (mret (cudaMalloc (Int.mul (Int.mul width height) 3)));
  d_gray ← check 1%nat (mret (cudaMalloc (Int.mul width height)));
  d_rgb ← check 2%nat
    (defined (cudaMemcpy d_rgb h_rgb (Int.mul (Int.mul width height) 3)));
  let gridSize := gridSize width height in
  d_gray ← defined
    (launch (rgbToGrayKernel c d_rgb width height) gridSize blockSize d_gray);
  h_gray ← check 3%nat
    (defined (cudaMemcpy h_gray d_gray (Int.mul width height)));
  let a := main_crop_args width height in
  let h_dst := new_uchar (Int.mul (dstWidth a) (dstHeight a)) in
  d_dst ← check 4%nat
    (mret (cudaMalloc (Int.mul (dstWidth a) (dstHeight a))));
  d_gray ← check 5%nat
    (defined (cudaMemcpy d_gray h_gray (Int.mul width height)));
  d_dst ← defined
    (launch (cropKernel d_gray width height (dstWidth a) (dstHeight a)
               (offsetX a) (offsetY a)) gridSize blockSize d_dst);
  d_dst ← defined
    (launch (adjustShadowsHighlightsKernel (dstWidth a) (dstHeight a))
       gridSize blockSize d_dst);
  h_dst ← check 6%nat
    (defined (cudaMemcpy h_dst d_dst (Int.mul (dstWidth a) (dstHeight a))));
  savePGM w (outputFilename sFilename) h_dst (dstWidth a) (dstHeight a);;
  emit (Stdout ("Saved image: " +:+ outputFilename sFilename +:+ nl)).

Definition inputFiles : list string :=
  ["img1.ppm"; "img2.ppm"; "img3.ppm"; "img4.ppm"; "img5.ppm";
   "img6.ppm"; "img7.ppm"; "img8.ppm"; "img9.ppm"; "img10.ppm"]%string.

(** [for (const auto& x : l) body] *)
Fixpoint for_each (l : list string) (body : string → M unit) : M unit :=
  match l with
  | [] => mret tt
  | x :: l' => body x;; for_each l' body
  end.

(** [main]; the directory is created without looking at the outcome, which
    shows only through [can_create]. Every exception the program throws
    derives from [std::exception], so the handler [catch (...)] is never
    entered. *)
Definition main (c : fp_contract) (w : world) (argv0 : string) : M unit :=
  emit (Stdout (argv0 +:+ " Starting..." +:+ nl +:+ nl));;
  try_catch
    (for_each inputFiles (processImage c w);;
     exit EXIT_SUCCESS)
    (λ what,
      emit (Stderr ("Program error! The following exception occurred: "
                      +:+ nl +:+ what +:+ nl));;
      exit EXIT_FAILURE).

(** ** Notions used in the statements *)

(** Image sizes for which the coordinates of the launch grid and the pixel
    count are values of [int]. *)
Definition fits_int (W H : Z) : Prop :=
  0 < W ∧ 0 < H ∧ W + 15 ≤ Int.INT_MAX ∧ H + 15 ≤ Int.INT_MAX
  ∧ W * H ≤ Int.INT_MAX.

(** The cell at column [x] of row [y] in a row-major buffer of one byte
    per pixel and [width] pixels per row. *)
Definition pixel (buf : buffer) (width x y : Z) : option cell :=
  buf !! Z.to_nat (y * width + x).

(** Channel [k] (0, 1, 2 for red, green, blue) of the pixel at column [x]
    of row [y] in an interleaved three-channel buffer. *)
Definition channel (rgb : buffer) (width x y k : Z) : option cell :=
  rgb !! Z.to_nat ((y * width + x) * 3 + k).

(** The truncation of the exact value of 0.299 R + 0.587 G + 0.114 B, the
    reading of section 4.1 in real arithmetic. *)
Definition luminance_exact (r g b : Z) : Z :=
  (299 * r + 587 * g + 114 * b) / 1000.

(** Every way of contracting the luminance expression. *)
Definition all_contracts : list fp_contract :=
  [FpContract InnerNone false; FpContract InnerLeft false;
   FpContract InnerRight false; FpContract InnerNone true;
   FpContract InnerLeft true; FpContract InnerRight true].

(** Whether the gray pixel [v, v, v] is stored as [v] or [v - 1]. *)
Definition gray_fixed_point (c : fp_contract) (v : Z) : bool :=
  match rgbToGray_pixel c (Def v) (Def v) (Def v) with
  | Def w => (v - 1 <=? w) && (w <=? v)
  | Indet => false
  end.

(** Whether a pixel comes out of the tone adjustment as a byte that is
    not darker. *)
Definition brightened (v : Z) : bool :=
  match adjust_pixel (Def v) with
  | Def w => (v <=? w) && (w <=? 255)
  | Indet => false
  end.

(** The lines sent to the error stream, and the names of the files
    written, in a run. *)
Definition stderr_lines (tr : list event) : list string :=
  omap (λ e, match e with Stderr s => Some s | _ => None end) tr.

Definition written_files (tr : list event) : list string :=
  omap (λ e, match e with WriteFile n _ => Some n | _ => None end) tr.

(** A piece of the program that ends in an error. *)
Definition is_error {A} (r : result A) : Prop :=
  match r with
  | Throw _ | Exit _ => True
  | Ret _ | Unmodelled => False
  end.

(** A binary PPM file of [width] by [height] pixels whose bytes all hold
    the character [v]. *)
Definition uniform_ppm (width height : Z) (v : ascii) : string :=
  "P6" +:+ nl +:+ pretty width +:+ " " +:+ pretty height +:+ nl
    +:+ "255" +:+ nl
    +:+ string_of_list_ascii
          (replicate (Z.to_nat (width * height * 3)) v).

(** A world where every input file is the same image, every output path
    can be written and no CUDA call fails. *)
Definition uniform_world (width height : Z) (v : ascii) : world :=
  World (λ _, Some (uniform_ppm width height v)) (λ _, true) (λ _ _, None).

(** The same, except that the third input file cannot be opened. *)
Definition world_without_img3 : world :=
  World (λ f, if decide (f = "img3.ppm") then None
              else Some (uniform_ppm 2 1 "d"%char))
        (λ _, true) (λ _ _, None).

(** An input file that cannot be opened, or whose first word is not the
    magic of a three-channel raster, or whose processing ends in any other
    error. *)
Definition image_fails (c : fp_contract) (w : world) (f : string) : Prop :=
  file_contents w f = None
  ∨ (∃ s, file_contents w f = Some s ∧ (read_word s).1 ≠ "P6")
  ∨ is_error (processImage c w f).2.

(** An input file that is processed to the end. *)
Definition image_done (c : fp_contract) (w : world) (f : string) : Prop :=
  (processImage c w f).2 = Ret tt.

(** A step that leaves no trace unless it ends the process, and then ends
    it with one diagnostic and the failure status. *)
Definition quiet {A} (m : M A) : Prop :=
  match m with
  | (tr, Ret _) | (tr, Throw _) => tr = []
  | (tr, Exit s) => s = EXIT_FAILURE ∧ ∃ d, tr = [Stderr d]
  | (_, Unmodelled) => True
  end.

(** The traces of the loop body for one input file. *)
Definition image_trace (f : string) (m : M unit) : Prop :=
  match m with
  | (tr, Ret _) =>
      ∃ content,
        tr = [WriteFile (outputFilename f) content;
              Stdout ("Saved image: " +:+ outputFilename f +:+ nl)]
  | (tr, Throw _) => tr = []
  | (tr, Exit s) => s = EXIT_FAILURE ∧ ∃ d, tr = [Stderr d]
  | (_, Unmodelled) => True
  end.

(** *** Values and rounding of [float] *)

(** The remainder kept by [shr_1] while a mantissa [M] is shifted right:
    after a shift by [P], a power of two, the round bit says whether the
    part shifted out is at least half of [P], and the sticky bit is clear
    only when that part is nothing or exactly the half. *)
Definition shr_inv (M P : Z) (rec : shr_record) : Prop :=
  ∃ rem, 0 ≤ shr_m rec ∧ M = shr_m rec * P + rem ∧ 0 ≤ rem < P
    ∧ (shr_r rec = true → P ≤ 2 * rem) ∧ (shr_r rec = false → 2 * rem < P)
    ∧ (shr_s rec = false → rem = 0 ∨ 2 * rem = P).

(** The value of a [float] that is not negative, in units of [2^-128]. *)
Definition f32_unit : Z := 2 ^ 128.

Definition f32_value (f : spec_float) : Z :=
  match f with
  | S754_finite false m e => Zpos m * 2 ^ (e + 128)
  | _ => 0
  end.

(** A [float] that is zero or positive, below [2^20], with an exponent of
    at least [-L]; the mantissa need not be normalised. *)
Definition f32_small (L : Z) (f : spec_float) : Prop :=
  match f with
  | S754_zero false => True
  | S754_finite false m e => - L ≤ e ∧ Zpos m * 2 ^ (e + 128) < 2 ^ 148
  | _ => False
  end.

(** The product inside a fused multiply-add, which is not rounded. *)
Definition f32_product_exact (a b : spec_float) : spec_float :=
  match a, b with
  | S754_finite sa ma ea, S754_finite sb mb eb =>
      S754_finite (xorb sa sb) (ma * mb) (ea + eb)
  | _, _ => F32.mul a b
  end.

(** [X] is small and within [B / 1000] units of [t / 1000]: the distance
    of a [float] to a number given in thousandths. *)
Definition f32_near (t B L : Z) (X : spec_float) : Prop :=
  f32_small L X ∧ Z.abs (1000 * f32_value X - t * f32_unit) ≤ B.

(** The same for one weighted channel, [k v / 1000], as a test. *)
Definition weighted_near (k v : Z) (X : spec_float) : bool :=
  match X with
  | S754_zero false => v =? 0
  | S754_finite false m e =>
      (-50 <=? e) && (Zpos m * 2 ^ (e + 128) <? 2 ^ 148)
      && (Z.abs (1000 * (Zpos m * 2 ^ (e + 128)) - k * v * 2 ^ 128)
          <=? 2 ^ 122)
  | _ => false
  end.

(** Both forms of the product of a weight and a channel byte. *)
Definition weight_products (w : spec_float) (v : Z) : list spec_float :=
  [F32.mul w (float_of_uchar v); f32_product_exact w (float_of_uchar v)].

Definition weights_near (v : Z) : bool :=
  forallb (weighted_near 299 v) (weight_products F32.c0_299 v)
  && forallb (weighted_near 587 v) (weight_products F32.c0_587 v)
  && forallb (weighted_near 114 v) (weight_products F32.c0_114 v).

(** A cell that holds a value of [unsigned char]. *)
Definition is_byte (c : cell) : Prop :=
  match c with
  | Def v => 0 ≤ v ≤ 255
  | Indet => False
  end.

(** ** Notions used in the further properties *)

Definition cell_eqb (a b : cell) : bool :=
  match a, b with
  | Def v, Def w => v =? w
  | Indet, Indet => true
  | _, _ => false
  end.

(** The tone adjustment in integer arithmetic: eleven tenths up to 128,
    twenty-one twentieths above, both rounded down; one less at the four
    highlights whose product is a whole number, since [1.05f] lies just
    below 1.05; nothing defined from 244 on. *)
Definition adjust_closed (v : Z) : cell :=
  if v <=? 128 then Def (11 * v / 10)
  else if v <=? 243 then
    Def (if (180 <=? v) && (v mod 20 =? 0)
         then 105 * v / 100 - 1 else 105 * v / 100)
  else Indet.

(** Whether two successive tone adjustments of a pixel both give a byte,
    each brighter than the one before. *)
Definition adjust_moves (v : Z) : bool :=
  match adjust_pixel (Def v) with
  | Def w =>
      match adjust_pixel (Def w) with
      | Def w' => (v <? w) && (w <? w')
      | Indet => false
      end
  | Indet => false
  end.

(** Whether the tone adjustment takes a pixel to a brighter byte on which
    a second adjustment has no defined result. *)
Definition adjust_leaves (v : Z) : bool :=
  match adjust_pixel (Def v) with
  | Def w => (v <? w) && is_indet (adjust_pixel (Def w))
  | Indet => false
  end.

(** The cell written by a thread of a kernel guarded by
    [x < width && y < height], at [y * width + x]. *)
Definition pixel_sel (width height : Z) (t : thread) : option nat :=
  if (thread_x t <? width) && (thread_y t <? height)
  then Some (Z.to_nat (thread_y t * width + thread_x t)) else None.

(** A string of white space only. *)
Fixpoint all_space (s : string) : bool :=
  match s with
  | EmptyString => true
  | String a s' => Ascii.is_space a && all_space s'
  end.

(** A string that does not go on with a decimal digit. *)
Definition no_digit_head (s : string) : bool :=
  match s with
  | EmptyString => true
  | String a _ => match Ascii.is_nat a with Some _ => false | None => true end
  end.

(** The cell [file.read] stores for a character. *)
Definition cell_of_ascii (a : ascii) : cell := Def (Z.of_N (N_of_ascii a)).

(** A cell that is indeterminate or holds a value of [unsigned char]. *)
Definition byte_cell (c : cell) : Prop :=
  match c with
  | Def v => 0 ≤ v ≤ 255
  | Indet => True
  end.

(** The text of a binary PPM file in the usual layout: magic, sizes and
    maximum sample in decimal, one line feed, then the samples. *)
Definition ppm_text (width height maxVal : Z) (data : string) : string :=
  "P6" +:+ nl +:+ pretty width +:+ " " +:+ pretty height +:+ nl
    +:+ pretty maxVal +:+ nl +:+ data.

(** A step that leaves no trace at all, unless it ends the process with
    one diagnostic and the failure status. *)
Definition silent {A} (m : M A) : Prop :=
  match m with
  | (tr, Ret _) | (tr, Throw _) | (tr, Unmodelled) => tr = []
  | (tr, Exit s) => s = EXIT_FAILURE ∧ ∃ d, tr = [Stderr d]
  end.

(** The traces of the loop body for one input file, whatever its end. *)
Definition image_events (f : string) (m : M unit) : Prop :=
  match m with
  | (tr, Ret _) =>
      ∃ content,
        tr = [WriteFile (outputFilename f) content;
              Stdout ("Saved image: " +:+ outputFilename f +:+ nl)]
  | (tr, Throw _) | (tr, Unmodelled) => tr = []
  | (tr, Exit s) => s = EXIT_FAILURE ∧ ∃ d, tr = [Stderr d]
  end.

(** Whether the luminance of a pixel with one channel only is the weighted
    value of that channel, rounded down. *)
Definition gray_single_channel (c : fp_contract) (v : Z) : bool :=
  cell_eqb (rgbToGray_pixel c (Def v) (Def 0) (Def 0)) (Def (299 * v / 1000))
  && cell_eqb (rgbToGray_pixel c (Def 0) (Def v) (Def 0))
       (Def (587 * v / 1000))
  && cell_eqb (rgbToGray_pixel c (Def 0) (Def 0) (Def v))
       (Def (114 * v / 1000)).

(** * Properties *)

(** ** Integer arithmetic that stays in range *)

Lemma wrap_small z : -2147483648 ≤ z ≤ Int.INT_MAX → Int.wrap z = z.
Proof.
  unfold Int.wrap, Int.INT_MAX, Int.modulus. intros Hz.
  rewrite Z.mod_small by lia. lia.
Qed.

Lemma uwrap_small z : 0 ≤ z < Int.modulus → Int.uwrap z = z.
Proof. unfold Int.uwrap. intros Hz. by rewrite Z.mod_small. Qed.

Lemma int_add_small a b :
  -2147483648 ≤ a + b ≤ Int.INT_MAX → Int.add a b = a + b.
Proof. apply wrap_small. Qed.

Lemma int_mul_small a b :
  -2147483648 ≤ a * b ≤ Int.INT_MAX → Int.mul a b = a * b.
Proof. apply wrap_small. Qed.

(** ** The threads of a launch *)

Lemma elem_of_launch_threads t g b :
  t ∈ launch_threads g b ↔
  ∃ bx by_ tx ty,
    t = Thread (Dim3 bx by_) b (Dim3 tx ty)
    ∧ 0 ≤ bx < dim_x g ∧ 0 ≤ by_ < dim_y g
    ∧ 0 ≤ tx < dim_x b ∧ 0 ≤ ty < dim_y b.
Proof.
  unfold launch_threads. split.
  - intros (by_ & (bx & (ty & (tx & Ht & Htx)%list_elem_of_bind
      & Hty)%list_elem_of_bind & Hbx)%list_elem_of_bind
      & Hby)%list_elem_of_bind.
    apply list_elem_of_singleton in Ht.
    apply elem_of_seqZ in Htx, Hty, Hbx, Hby.
    exists bx, by_, tx, ty. split_and!; [done | lia..].
  - intros (bx & by_ & tx & ty & -> & ? & ? & ? & ?).
    apply list_elem_of_bind. exists by_. split; [|apply elem_of_seqZ; lia].
    apply list_elem_of_bind. exists bx. split; [|apply elem_of_seqZ; lia].
    apply list_elem_of_bind. exists ty. split; [|apply elem_of_seqZ; lia].
    apply list_elem_of_bind. exists tx. split; [|apply elem_of_seqZ; lia].
    by apply list_elem_of_singleton.
Qed.

Lemma NoDup_launch_threads g b : NoDup (launch_threads g b).
Proof.
  unfold launch_threads.
  apply NoDup_bind; [| |apply NoDup_seqZ].
  { intros y1 y2 t _ _.
    intros (? & (? & (? & ->%list_elem_of_singleton & _)%list_elem_of_bind
      & _)%list_elem_of_bind & _)%list_elem_of_bind.
    intros (? & (? & (? & [= _ -> _ _]%list_elem_of_singleton
      & _)%list_elem_of_bind & _)%list_elem_of_bind & _)%list_elem_of_bind.
    done. }
  intros by_ _. apply NoDup_bind; [| |apply NoDup_seqZ].
  { intros x1 x2 t _ _.
    intros (? & (? & ->%list_elem_of_singleton & _)%list_elem_of_bind
      & _)%list_elem_of_bind.
    intros (? & (? & [= -> _ _]%list_elem_of_singleton
      & _)%list_elem_of_bind & _)%list_elem_of_bind.
    done. }
  intros bx _. apply NoDup_bind; [| |apply NoDup_seqZ].
  { intros y1 y2 t _ _.
    intros (? & ->%list_elem_of_singleton & _)%list_elem_of_bind.
    intros (? & [= _ ->]%list_elem_of_singleton & _)%list_elem_of_bind.
    done. }
  intros ty _. apply NoDup_bind; [| |apply NoDup_seqZ].
  { intros x1 x2 t _ _ ->%list_elem_of_singleton
      [= ->]%list_elem_of_singleton. done. }
  intros tx _. apply NoDup_singleton.
Qed.

Lemma gridSize_eq W H :
  0 < W → 0 < H → W + 15 ≤ Int.INT_MAX → H + 15 ≤ Int.INT_MAX →
  gridSize W H = Dim3 ((W + 15) / 16) ((H + 15) / 16).
Proof.
  intros. unfold gridSize, Int.udiv, Int.usub, Int.uadd, blockSize. simpl.
  unfold Int.INT_MAX in *.
  rewrite !(uwrap_small 16) by (unfold Int.modulus; lia).
  rewrite !(uwrap_small (_ + 16)) by (unfold Int.modulus; lia).
  rewrite !(uwrap_small (_ - 1)) by (unfold Int.modulus; lia).
  f_equal; f_equal; lia.
Qed.

(** The coordinates of the threads launched for a [W] by [H] image. *)
Lemma thread_coords W H t :
  fits_int W H →
  t ∈ launch_threads (gridSize W H) blockSize →
  ∃ bx by_ tx ty,
    t = Thread (Dim3 bx by_) blockSize (Dim3 tx ty)
    ∧ 0 ≤ tx < 16 ∧ 0 ≤ ty < 16 ∧ 0 ≤ bx ∧ 0 ≤ by_
    ∧ thread_x t = bx * 16 + tx ∧ thread_y t = by_ * 16 + ty
    ∧ thread_x t < W + 15 ∧ thread_y t < H + 15.
Proof.
  intros (HW & HH & HW' & HH' & _).
  rewrite gridSize_eq by done.
  intros (bx & by_ & tx & ty & -> & Hbx & Hby & Htx & Hty)
    %elem_of_launch_threads.
  simpl in *. exists bx, by_, tx, ty.
  assert (bx * 16 + tx < W + 15).
  { pose proof (Z.mul_div_le (W + 15) 16). 
    assert (16 * (bx + 1) ≤ 16 * ((W + 15) / 16)) by lia. lia. }
  assert (by_ * 16 + ty < H + 15).
  { pose proof (Z.mul_div_le (H + 15) 16).
    assert (16 * (by_ + 1) ≤ 16 * ((H + 15) / 16)) by lia. lia. }
  unfold thread_x, thread_y, Int.uadd, Int.umul. simpl.
  unfold Int.INT_MAX in *.
  rewrite !(uwrap_small (_ * 16)) by (unfold Int.modulus; lia).
  rewrite !(uwrap_small (_ * 16 + _)) by (unfold Int.modulus; lia).
  rewrite !wrap_small by (unfold Int.INT_MAX; lia).
  split_and!; (done || lia).
Qed.

Lemma thread_coords_inj W H t1 t2 :
  fits_int W H →
  t1 ∈ launch_threads (gridSize W H) blockSize →
  t2 ∈ launch_threads (gridSize W H) blockSize →
  thread_x t1 = thread_x t2 → thread_y t1 = thread_y t2 → t1 = t2.
Proof.
  intros Hfit H1 H2.
  destruct (thread_coords _ _ _ Hfit H1)
    as (bx1 & by1 & tx1 & ty1 & -> & ? & ? & ? & ? & -> & -> & _).
  destruct (thread_coords _ _ _ Hfit H2)
    as (bx2 & by2 & tx2 & ty2 & -> & ? & ? & ? & ? & -> & -> & _).
  intros Hx Hy.
  assert (bx1 = bx2 ∧ tx1 = tx2 ∧ by1 = by2 ∧ ty1 = ty2) as (-> & -> & -> & ->)
    by lia.
  done.
Qed.

(** Every pixel of the image has its thread. *)
Lemma thread_cover W H x y :
  fits_int W H → 0 ≤ x < W → 0 ≤ y < H →
  ∃ t, t ∈ launch_threads (gridSize W H) blockSize
       ∧ thread_x t = x ∧ thread_y t = y.
Proof.
  intros Hfit Hx Hy.
  assert (Hin : Thread (Dim3 (x / 16) (y / 16)) blockSize
                  (Dim3 (x mod 16) (y mod 16))
                ∈ launch_threads (gridSize W H) blockSize).
  { destruct Hfit as (? & ? & ? & ? & _).
    rewrite gridSize_eq by done.
    apply elem_of_launch_threads.
    exists (x / 16), (y / 16), (x mod 16), (y mod 16). simpl.
    pose proof (Z.mod_pos_bound x 16). pose proof (Z.mod_pos_bound y 16).
    split_and!; try done; try lia.
    - apply Z.div_pos; lia.
    - apply Z.div_lt_upper_bound; [lia|].
      pose proof (Z.mul_div_le (W + 15) 16).
      pose proof (Z.mod_pos_bound (W + 15) 16).
      pose proof (Z.div_mod (W + 15) 16). lia.
    - apply Z.div_pos; lia.
    - apply Z.div_lt_upper_bound; [lia|].
      pose proof (Z.mod_pos_bound (H + 15) 16).
      pose proof (Z.div_mod (H + 15) 16). lia. }
  eexists. split; [exact Hin|].
  destruct (thread_coords _ _ _ Hfit Hin)
    as (bx & by_ & tx & ty & [= <- <- <- <-] & ? & ? & ? & ? & -> & -> & _).
  pose proof (Z.div_mod x 16). pose proof (Z.div_mod y 16). lia.
Qed.

(** ** Kernels that write one cell per selected thread *)

Section pointwise.
Variable k : kernel.
(** the cell a thread writes, if it passes the guard *)
Variable sel : thread → option nat.
(** the value it writes there, from the value it finds *)
Variable val : thread → cell → cell.

Lemma run_threads_pointwise ts m :
  NoDup ts →
  (∀ t1 t2 i, t1 ∈ ts → t2 ∈ ts →
     sel t1 = Some i → sel t2 = Some i → t1 = t2) →
  (∀ t i, t ∈ ts → sel t = Some i → (i < length m)%nat) →
  (∀ t m1, t ∈ ts → length m1 = length m →
     k t m1 = match sel t with
              | None => Some m1
              | Some i => (λ old, <[i := val t old]> m1) <$> m1 !! i
              end) →
  ∃ m', run_threads k ts m = Some m' ∧ length m' = length m
    ∧ (∀ t i, t ∈ ts → sel t = Some i → m' !! i = val t <$> m !! i)
    ∧ (∀ i, (∀ t, t ∈ ts → sel t ≠ Some i) → m' !! i = m !! i).
Proof.
  intros Hnd. revert m.
  induction Hnd as [|t ts Hnotin Hnd IH]; intros m Hinj Hlen Hk.
  { exists m. split_and!; [done..| |done]. by intros t i ?%elem_of_nil. }
  simpl. rewrite (Hk t m) by (done || left).
  destruct (sel t) as [i|] eqn:Hsel.
  - destruct (lookup_lt_is_Some_2 m i) as [old Hold].
    { eapply Hlen; [left|done]. }
    rewrite Hold. simpl.
    destruct (IH (<[i:=val t old]> m)) as (m' & Hrun & Hlen' & Hsel' & Hrest).
    + intros t1 t2 j ? ?. apply Hinj; by right.
    + intros t' j ? ?. rewrite length_insert. eapply Hlen; [by right|done].
    + intros t' m1 ? Hm1. rewrite length_insert in Hm1.
      apply Hk; [by right|done].
    + exists m'. rewrite length_insert in Hlen'. split_and!; [done..| |].
      * intros t' j [->|Hin]%elem_of_cons Hj.
        -- assert (i = j) as <- by congruence.
           rewrite Hrest, Hold.
           ++ simpl. apply list_lookup_insert_eq.
              by eapply lookup_lt_Some.
           ++ intros t' Hin Ht'. apply Hnotin.
              by rewrite (Hinj t t' i); [| left | right | |].
        -- rewrite (Hsel' t' j) by done.
           rewrite list_lookup_insert_ne; [done|].
           intros ->. apply Hnotin.
           by rewrite (Hinj t t' j); [| left | right | |].
      * intros j Hj. rewrite Hrest.
        -- apply list_lookup_insert_ne. intros ->.
           by apply (Hj t); [left|].
        -- intros t' ?. apply Hj. by right.
  - destruct (IH m) as (m' & Hrun & Hlen' & Hsel' & Hrest).
    + intros t1 t2 j ? ?. apply Hinj; by right.
    + intros t' j ?. apply Hlen. by right.
    + intros t' m1 ?. apply Hk. by right.
    + exists m'. split_and!; [done..| |].
      * intros t' j [->|Hin]%elem_of_cons Hj; [congruence|]. by apply Hsel'.
      * intros j Hj. apply Hrest. intros t' ?. apply Hj. by right.
Qed.
End pointwise.

(** The order in which the threads run does not matter for such a
    kernel: every schedule of the same threads gives the same buffer. *)
Lemma run_threads_schedule k sel val ts ts' m :
  ts ≡ₚ ts' →
  NoDup ts →
  (∀ t1 t2 i, t1 ∈ ts → t2 ∈ ts →
     sel t1 = Some i → sel t2 = Some i → t1 = t2) →
  (∀ t i, t ∈ ts → sel t = Some i → (i < length m)%nat) →
  (∀ t m1, t ∈ ts → length m1 = length m →
     k t m1 = match sel t with
              | None => Some m1
              | Some i => (λ old, <[i := val t old]> m1) <$> m1 !! i
              end) →
  run_threads k ts' m = run_threads k ts m.
Proof.
  intros Hperm Hnd Hinj Hlen Hk.
  destruct (run_threads_pointwise k sel val ts m Hnd Hinj Hlen Hk)
    as (m1 & -> & Hl1 & Hs1 & Hr1).
  destruct (run_threads_pointwise k sel val ts' m)
    as (m2 & -> & Hl2 & Hs2 & Hr2).
  - by rewrite <-Hperm.
  - intros t1 t2 i. rewrite <-!Hperm. apply Hinj.
  - intros t i. rewrite <-Hperm. apply Hlen.
  - intros t m1'. rewrite <-Hperm. apply Hk.
  - f_equal. apply list_eq. intros i.
    destruct (decide (Exists (λ t, sel t = Some i) ts)) as [Hex|Hex].
    + apply Exists_exists in Hex as (t & Hin & Hsel).
      rewrite (Hs1 t i Hin Hsel). apply Hs2; [by rewrite <-Hperm|done].
    + rewrite Hr1, Hr2; [done| |].
      * intros t Hin Hsel. apply Hex, Exists_exists. exists t.
        by rewrite Hperm.
      * intros t Hin Hsel. apply Hex, Exists_exists. by exists t.
Qed.

(** ** RectangularCropper *)

Lemma row_major_inj w x1 y1 x2 y2 :
  0 ≤ x1 < w → 0 ≤ x2 < w → 0 ≤ y1 → 0 ≤ y2 →
  y1 * w + x1 = y2 * w + x2 → x1 = x2 ∧ y1 = y2.
Proof. intros. assert (y1 = y2) by nia. subst. lia. Qed.

Lemma mul_bounds a b : 0 ≤ a → 1 ≤ b → 0 ≤ a * b ∧ a ≤ a * b.
Proof. intros. nia. Qed.

Lemma mul_le_mul a b c d : 0 ≤ a ≤ c → 0 ≤ b ≤ d → a * b ≤ c * d.
Proof. intros. nia. Qed.

Lemma row_major_lt w h x y :
  0 ≤ x < w → 0 ≤ y < h → 0 ≤ y * w + x < w * h.
Proof. intros. nia. Qed.

(** The crop kernel, launched over the grid of the source image with a
    window no larger than the source whose reads all fall inside the
    source: every cell of the destination is the cell of the source at the
    index the kernel computes. *)
Lemma cropKernel_launch
    (src dst0 : buffer) (srcW srcH w h ox oy : Z) :
  fits_int srcW srcH →
  length src = Z.to_nat (srcW * srcH) →
  0 ≤ ox → 0 ≤ oy → 0 ≤ w ≤ srcW → 0 ≤ h ≤ srcH →
  (∀ x y, 0 ≤ x < w → 0 ≤ y < h →
     (y + oy) * srcW + (x + ox) < srcW * srcH) →
  length dst0 = Z.to_nat (w * h) →
  ∃ dst,
    launch (cropKernel src srcW srcH w h ox oy)
      (gridSize srcW srcH) blockSize dst0 = Some dst
    ∧ length dst = Z.to_nat (w * h)
    ∧ ∀ x y, 0 ≤ x < w → 0 ≤ y < h →
        is_Some (pixel dst w x y)
        ∧ pixel dst w x y = pixel src srcW (x + ox) (y + oy).
Proof.
  intros Hfit Hsrc Hox Hoy Hw Hh Hin Hdst.
  pose proof Hfit as (HW & HH & HW' & HH' & HWH).
  set (sel := λ t : thread,
    if (thread_x t <? w) && (thread_y t <? h)
    then Some (Z.to_nat (thread_y t * w + thread_x t)) else None).
  set (val := λ (t : thread) (_ : cell),
    default Indet (pixel src srcW (thread_x t + ox) (thread_y t + oy))).
  assert (Hguard : ∀ t i, t ∈ launch_threads (gridSize srcW srcH) blockSize →
            sel t = Some i →
            0 ≤ thread_x t < w ∧ 0 ≤ thread_y t < h
            ∧ i = Z.to_nat (thread_y t * w + thread_x t)).
  { intros t i Hint. unfold sel.
    destruct (thread_coords _ _ _ Hfit Hint)
      as (bx & by_ & tx & ty & _ & ? & ? & ? & ? & Hx & Hy & _).
    destruct (thread_x t <? w) eqn:Ex; [|done].
    destruct (thread_y t <? h) eqn:Ey; [|done].
    intros [= <-]. apply Z.ltb_lt in Ex, Ey. lia. }
  destruct (run_threads_pointwise (cropKernel src srcW srcH w h ox oy)
    sel val (launch_threads (gridSize srcW srcH) blockSize) dst0)
    as (dst & Hrun & Hlen & Hsel & _).
  - apply NoDup_launch_threads.
  - intros t1 t2 i Ht1 Ht2 S1 S2.
    destruct (Hguard _ _ Ht1 S1) as (? & ? & ->).
    destruct (Hguard _ _ Ht2 S2) as (? & ? & Heq).
    apply Z2Nat.inj in Heq; [|lia..].
    destruct (row_major_inj w (thread_x t1) (thread_y t1)
                (thread_x t2) (thread_y t2)); [lia..|].
    by eapply thread_coords_inj.
  - intros t i Hint S. destruct (Hguard _ _ Hint S) as (? & ? & ->).
    rewrite Hdst.
    pose proof (row_major_lt w h (thread_x t) (thread_y t)). lia.
  - intros t m1 Hint Hm1. unfold cropKernel.
    destruct (sel t) as [i|] eqn:S.
    + destruct (Hguard _ _ Hint S) as (Hx & Hy & ->).
      unfold sel in S. destruct (_ && _); [|done]. clear S.
      pose proof (row_major_lt w h (thread_x t) (thread_y t) Hx Hy).
      pose proof (Hin (thread_x t) (thread_y t) Hx Hy).
      pose proof (mul_le_mul w h srcW srcH).
      pose proof (mul_bounds (thread_y t + oy) srcW).
      pose proof (mul_bounds (thread_y t) srcW).
      pose proof (Z.mul_nonneg_nonneg (thread_y t) w).
      unfold Int.INT_MAX in *. unfold srcIdx.
      rewrite (int_add_small (thread_y t)) by (unfold Int.INT_MAX; lia).
      rewrite (int_add_small (thread_x t)) by (unfold Int.INT_MAX; lia).
      rewrite !int_mul_small by (unfold Int.INT_MAX; lia).
      rewrite !int_add_small by (unfold Int.INT_MAX; lia).
      unfold load. rewrite (proj2 (Z.leb_le _ _)) by lia.
      destruct (lookup_lt_is_Some_2 src
        (Z.to_nat ((thread_y t + oy) * srcW + (thread_x t + ox)))) as [v Hv].
      { rewrite Hsrc. lia. }
      rewrite Hv. simpl. unfold store.
      rewrite (proj2 (Z.leb_le _ _)) by lia.
      rewrite (proj2 (Z.ltb_lt _ _)) by (rewrite Hm1, Hdst; lia). simpl.
      destruct (lookup_lt_is_Some_2 m1
        (Z.to_nat (thread_y t * w + thread_x t))) as [old Hold].
      { rewrite Hm1, Hdst. lia. }
      rewrite Hold. simpl. unfold val, pixel. by rewrite Hv.
    + unfold sel in S. by destruct (_ && _).
  - exists dst. split; [done|]. split; [by rewrite Hlen|].
    intros x y Hx Hy.
    destruct (thread_cover srcW srcH x y Hfit) as (t & Hint & Htx & Hty);
      [lia..|].
    assert (S : sel t = Some (Z.to_nat (y * w + x))).
    { unfold sel. rewrite Htx, Hty.
      rewrite (proj2 (Z.ltb_lt x w)), (proj2 (Z.ltb_lt y h)) by lia. done. }
    pose proof (row_major_lt w h x y Hx Hy).
    pose proof (Hin x y Hx Hy).
    destruct (lookup_lt_is_Some_2 dst0 (Z.to_nat (y * w + x))) as [old Hold].
    { rewrite Hdst. lia. }
    destruct (lookup_lt_is_Some_2 src
      (Z.to_nat ((y + oy) * srcW + (x + ox)))) as [v Hv].
    { rewrite Hsrc. lia. }
    unfold pixel. rewrite (Hsel t _ Hint S), Hold. simpl.
    unfold val, pixel. rewrite Htx, Hty, Hv. simpl. split; [by eexists|done].
Qed.

(** C6. Launched as [main] does, over the grid of the source image, the crop
    kernel fills a destination of [w * h] cells with
    destination(x, y) = source(x + offsetX, y + offsetY), for every
    rectangle inside the source. *)
Theorem cropKernel_copies_rectangle
    (src dst0 : buffer) (srcW srcH w h ox oy : Z) :
  fits_int srcW srcH →
  length src = Z.to_nat (srcW * srcH) →
  0 ≤ ox → 0 ≤ oy → 0 ≤ w → 0 ≤ h →
  ox + w ≤ srcW → oy + h ≤ srcH →
  length dst0 = Z.to_nat (w * h) →
  ∃ dst,
    launch (cropKernel src srcW srcH w h ox oy)
      (gridSize srcW srcH) blockSize dst0 = Some dst
    ∧ length dst = Z.to_nat (w * h)
    ∧ ∀ x y, 0 ≤ x < w → 0 ≤ y < h →
        is_Some (pixel dst w x y)
        ∧ pixel dst w x y = pixel src srcW (x + ox) (y + oy).
Proof.
  intros Hfit Hsrc Hox Hoy Hw Hh Hxw Hyh Hdst.
  apply cropKernel_launch; try done; try lia.
  intros x y Hx Hy.
  pose proof (row_major_lt srcW srcH (x + ox) (y + oy)). lia.
Qed.

(** ** ColorReducer *)

Lemma fits_int_rgb W H :
  0 < W → 0 < H → W * H * 3 ≤ Int.INT_MAX → fits_int W H.
Proof. unfold fits_int, Int.INT_MAX. intros. split_and!; nia. Qed.

(** The grayscale kernel, launched as [main] does on a [W] by [H] image,
    writes every cell of the output from the three channel bytes of the
    same pixel. *)
Lemma rgbToGrayKernel_pixels (c : fp_contract) (rgb gray0 : buffer) (W H : Z) :
  0 < W → 0 < H → W * H * 3 ≤ Int.INT_MAX →
  length rgb = Z.to_nat (W * H * 3) →
  length gray0 = Z.to_nat (W * H) →
  ∃ gray,
    launch (rgbToGrayKernel c rgb W H) (gridSize W H) blockSize gray0
      = Some gray
    ∧ length gray = Z.to_nat (W * H)
    ∧ ∀ x y, 0 ≤ x < W → 0 ≤ y < H →
        ∃ r g b,
          channel rgb W x y 0 = Some r ∧ channel rgb W x y 1 = Some g
          ∧ channel rgb W x y 2 = Some b
          ∧ pixel gray W x y = Some (rgbToGray_pixel c r g b).
Proof.
  intros HW HH H3 Hrgb Hgray.
  pose proof (fits_int_rgb W H HW HH H3) as Hfit.
  set (sel := λ t : thread,
    if (thread_x t <? W) && (thread_y t <? H)
    then Some (Z.to_nat (thread_y t * W + thread_x t)) else None).
  set (val := λ (t : thread) (_ : cell),
    rgbToGray_pixel c
      (default Indet (channel rgb W (thread_x t) (thread_y t) 0))
      (default Indet (channel rgb W (thread_x t) (thread_y t) 1))
      (default Indet (channel rgb W (thread_x t) (thread_y t) 2))).
  assert (Hchan : ∀ x y k, 0 ≤ x < W → 0 ≤ y < H → 0 ≤ k < 3 →
            is_Some (channel rgb W x y k)).
  { intros x y k Hx Hy Hk. apply lookup_lt_is_Some_2. rewrite Hrgb.
    pose proof (row_major_lt W H x y Hx Hy). lia. }
  assert (Hguard : ∀ t i, t ∈ launch_threads (gridSize W H) blockSize →
            sel t = Some i →
            0 ≤ thread_x t < W ∧ 0 ≤ thread_y t < H
            ∧ i = Z.to_nat (thread_y t * W + thread_x t)).
  { intros t i Hin. unfold sel.
    destruct (thread_coords _ _ _ Hfit Hin)
      as (bx & by_ & tx & ty & _ & ? & ? & ? & ? & Hx & Hy & _).
    destruct (thread_x t <? W) eqn:Ex; [|done].
    destruct (thread_y t <? H) eqn:Ey; [|done].
    intros [= <-]. apply Z.ltb_lt in Ex, Ey. lia. }
  destruct (run_threads_pointwise (rgbToGrayKernel c rgb W H)
    sel val (launch_threads (gridSize W H) blockSize) gray0)
    as (gray & Hrun & Hlen & Hsel & _).
  - apply NoDup_launch_threads.
  - intros t1 t2 i H1 H2 S1 S2.
    destruct (Hguard _ _ H1 S1) as (? & ? & ->).
    destruct (Hguard _ _ H2 S2) as (? & ? & Heq).
    apply Z2Nat.inj in Heq; [|lia..].
    destruct (row_major_inj W (thread_x t1) (thread_y t1)
                (thread_x t2) (thread_y t2)); [lia..|].
    by eapply thread_coords_inj.
  - intros t i Hin S. destruct (Hguard _ _ Hin S) as (? & ? & ->).
    rewrite Hgray.
    pose proof (row_major_lt W H (thread_x t) (thread_y t)). lia.
  - intros t m1 Hin Hm1. unfold rgbToGrayKernel.
    destruct (sel t) as [i|] eqn:S.
    + destruct (Hguard _ _ Hin S) as (Hx & Hy & ->).
      unfold sel in S. destruct (_ && _); [|done]. clear S.
      pose proof (row_major_lt W H (thread_x t) (thread_y t) Hx Hy).
      unfold Int.INT_MAX in *.
      rewrite (int_mul_small (thread_y t)) by (unfold Int.INT_MAX; nia).
      rewrite (int_add_small (_ * _)) by (unfold Int.INT_MAX; nia).
      rewrite int_mul_small by (unfold Int.INT_MAX; nia).
      rewrite !int_add_small by (unfold Int.INT_MAX; nia).
      destruct (Hchan (thread_x t) (thread_y t) 0) as [r Hr]; [lia..|].
      destruct (Hchan (thread_x t) (thread_y t) 1) as [g Hg]; [lia..|].
      destruct (Hchan (thread_x t) (thread_y t) 2) as [b Hb]; [lia..|].
      unfold val. rewrite Hr, Hg, Hb. unfold channel in Hr, Hg, Hb.
      unfold load. rewrite !(proj2 (Z.leb_le 0 _)) by lia.
      rewrite Z.add_0_r in Hr. rewrite Hr, Hg, Hb. simpl.
      unfold store.
      rewrite (proj2 (Z.leb_le _ _)) by lia.
      rewrite (proj2 (Z.ltb_lt _ _)) by (rewrite Hm1, Hgray; lia). simpl.
      destruct (lookup_lt_is_Some_2 m1
        (Z.to_nat (thread_y t * W + thread_x t))) as [old Hold].
      { rewrite Hm1, Hgray. lia. }
      by rewrite Hold.
    + unfold sel in S. by destruct (_ && _).
  - exists gray. split; [done|]. split; [by rewrite Hlen|].
    intros x y Hx Hy.
    destruct (thread_cover W H x y Hfit) as (t & Hin & Htx & Hty); [lia..|].
    assert (S : sel t = Some (Z.to_nat (y * W + x))).
    { unfold sel. rewrite Htx, Hty.
      rewrite (proj2 (Z.ltb_lt x W)), (proj2 (Z.ltb_lt y H)) by lia. done. }
    pose proof (row_major_lt W H x y Hx Hy).
    destruct (lookup_lt_is_Some_2 gray0 (Z.to_nat (y * W + x))) as [old Hold].
    { rewrite Hgray. lia. }
    destruct (Hchan x y 0) as [r Hr]; [lia..|].
    destruct (Hchan x y 1) as [g Hg]; [lia..|].
    destruct (Hchan x y 2) as [b Hb]; [lia..|].
    exists r, g, b. split_and!; [done..|].
    unfold pixel. rewrite (Hsel t _ Hin S), Hold. simpl.
    unfold val. by rewrite Htx, Hty, Hr, Hg, Hb.
Qed.

(** ** The floating-point literals *)

(** Each literal is the binary32 value nearest to the decimal numeral: it
    is what correctly rounded division of the two integers gives. *)
Lemma literals_correctly_rounded :
  F32.c0_299 = F32.div (F32.of_Z 299) (F32.of_Z 1000)
  ∧ F32.c0_587 = F32.div (F32.of_Z 587) (F32.of_Z 1000)
  ∧ F32.c0_114 = F32.div (F32.of_Z 114) (F32.of_Z 1000)
  ∧ F32.c1_1 = F32.div (F32.of_Z 11) (F32.of_Z 10)
  ∧ F32.c1_05 = F32.div (F32.of_Z 105) (F32.of_Z 100)
  ∧ F32.c255 = F32.of_Z 255.
Proof. split_and!; vm_compute; reflexivity. Qed.

(** The literals are canonical binary32 numbers. *)
Lemma literals_valid :
  Forall (λ f, valid_binary F32.prec F32.emax f = true)
    [F32.c0_299; F32.c0_587; F32.c0_114; F32.c1_1; F32.c1_05; F32.c255; F32.c0].
Proof. repeat constructor. Qed.

(** Each literal lies within half a unit in the last place of its decimal:
    [|m / 2^k - n / d| <= 1 / 2^(k+1)], stated on integers. *)
Lemma literals_half_ulp :
  Z.abs (2 * (10032775 * 1000 - 299 * 2 ^ 25)) ≤ 1000
  ∧ Z.abs (2 * (9848226 * 1000 - 587 * 2 ^ 24)) ≤ 1000
  ∧ Z.abs (2 * (15300821 * 1000 - 114 * 2 ^ 27)) ≤ 1000
  ∧ Z.abs (2 * (9227469 * 10 - 11 * 2 ^ 23)) ≤ 10
  ∧ Z.abs (2 * (8808038 * 100 - 105 * 2 ^ 23)) ≤ 100.
Proof. split_and!; vm_compute; discriminate. Qed.

Lemma all_contracts_complete c : c ∈ all_contracts.
Proof.
  destruct c as [[ | | ] [ | ]]; unfold all_contracts;
    repeat (first [apply list_elem_of_here | apply list_elem_of_further]).
Qed.

(** ** ColorReducer on single pixels *)

Lemma gray_fixed_point_all :
  forallb (λ c, forallb (gray_fixed_point c) (seqZ 0 256)) all_contracts
  = true.
Proof. vm_compute. reflexivity. Qed.

(** C8. On a gray pixel R = G = B = v the colour reducer stores [v] or
    [v - 1], under every contraction of the expression: a fixed point up
    to one unit of truncation. *)
Theorem rgbToGray_gray_fixed_point (c : fp_contract) (v : Z) :
  0 ≤ v ≤ 255 →
  ∃ w, rgbToGray_pixel c (Def v) (Def v) (Def v) = Def w
       ∧ v - 1 ≤ w ≤ v ∧ Z.abs (w - v) ≤ 1.
Proof.
  intros Hv.
  pose proof gray_fixed_point_all as Hall.
  rewrite forallb_forall in Hall.
  specialize (Hall c (proj1 (list_elem_of_In _ _) (all_contracts_complete c))).
  rewrite forallb_forall in Hall.
  assert (Hin : v ∈ seqZ 0 256) by (apply elem_of_seqZ; lia).
  specialize (Hall v (proj1 (list_elem_of_In _ _) Hin)).
  unfold gray_fixed_point in Hall.
  destruct (rgbToGray_pixel c (Def v) (Def v) (Def v)) as [w|]; [|done].
  apply andb_true_iff in Hall as [?%Z.leb_le ?%Z.leb_le].
  exists w. split; [done|]. lia.
Qed.

Lemma rgbToGray_gray_fixed_point_witness :
  ∃ w, rgbToGray_pixel fp_strict (Def 37) (Def 37) (Def 37) = Def w
       ∧ 37 - 1 ≤ w ≤ 37 ∧ Z.abs (w - 37) ≤ 1.
Proof. apply (rgbToGray_gray_fixed_point fp_strict 37). lia. Defined.

(** The truncation does bite: with every operation rounded on its own the
    gray pixel 37 is stored as 36, and (0, 255, 0), whose luminance is
    149.685, is stored as 149 under every contraction. *)
Lemma rgbToGray_truncates :
  rgbToGray_pixel fp_strict (Def 37) (Def 37) (Def 37) = Def 36
  ∧ Forall (λ c, rgbToGray_pixel c (Def 0) (Def 255) (Def 0) = Def 149)
      all_contracts.
Proof. split; [vm_compute; reflexivity|]. repeat constructor. Qed.

(** ** ToneAdjuster on single pixels *)

(** C5. The boundary 128 takes the shadow branch: 128 is stored as the
    truncation of 128 * 1.1f, which is 140, and 129 as the truncation of
    129 * 1.05f, which is 135; the other branch would give 134 and 141.
    The kernel run on the two pixels stores these values. *)
Theorem adjust_boundary_128 :
  adjust_pixel (Def 128)
    = uchar_of_float (F32.mul (float_of_uchar 128) F32.c1_1)
  ∧ adjust_pixel (Def 128) = Def 140
  ∧ adjust_pixel (Def 129)
    = uchar_of_float (F32.mul (float_of_uchar 129) F32.c1_05)
  ∧ adjust_pixel (Def 129) = Def 135
  ∧ uchar_of_float (F32.mul (float_of_uchar 128) F32.c1_05) = Def 134
  ∧ uchar_of_float (F32.mul (float_of_uchar 129) F32.c1_1) = Def 141
  ∧ launch (adjustShadowsHighlightsKernel 2 1) (gridSize 2 1) blockSize
      [Def 128; Def 129] = Some [Def 140; Def 135].
Proof. split_and!; vm_compute; reflexivity. Qed.

(** C2. The highlight branch has no upper clamp: for the pixel 255 the
    value handed to the conversion is 267.75, its integer part 267 is not
    an [unsigned char], and the cell stored has no defined value. *)
Theorem adjust_255_not_saturated :
  adjust_value 255 = S754_finite false 8773632 (-15)
  ∧ 8773632 * 100 = 26775 * 2 ^ 15
  ∧ F32.trunc (adjust_value 255) = Some 267
  ∧ adjust_pixel (Def 255) = Indet
  ∧ adjust_pixel (Def 255) ≠ Def 255.
Proof. split_and!; try (vm_compute; reflexivity). discriminate. Qed.

(** Pixels up to 243 come out as bytes that are not darker; from 244 on
    the product exceeds 255 and nothing defined is stored. *)
Lemma adjust_brightens_up_to_243 (v : Z) :
  0 ≤ v ≤ 243 →
  ∃ w, adjust_pixel (Def v) = Def w ∧ v ≤ w ≤ 255.
Proof.
  intros Hv.
  assert (Hall : forallb brightened (seqZ 0 244) = true)
    by (vm_compute; reflexivity).
  rewrite forallb_forall in Hall.
  assert (Hin : v ∈ seqZ 0 244) by (apply elem_of_seqZ; lia).
  specialize (Hall v (proj1 (list_elem_of_In _ _) Hin)).
  unfold brightened in Hall.
  destruct (adjust_pixel (Def v)) as [w|]; [|done].
  apply andb_true_iff in Hall as [?%Z.leb_le ?%Z.leb_le]. by exists w.
Qed.

Lemma adjust_undefined_from_244 (v : Z) :
  244 ≤ v ≤ 255 → adjust_pixel (Def v) = Indet.
Proof.
  intros Hv.
  assert (Hall : forallb (λ v, is_indet (adjust_pixel (Def v)))
                   (seqZ 244 12) = true) by (vm_compute; reflexivity).
  rewrite forallb_forall in Hall.
  assert (Hin : v ∈ seqZ 244 12) by (apply elem_of_seqZ; lia).
  specialize (Hall v (proj1 (list_elem_of_In _ _) Hin)).
  by destruct (adjust_pixel (Def v)).
Qed.

(** C3. On the one-pixel buffer holding 255 the tone kernel stores a cell
    without a defined value, hence no byte that is at least 255. *)
Theorem adjust_255_not_brightened :
  launch (adjustShadowsHighlightsKernel 1 1) (gridSize 1 1) blockSize
    [Def 255] = Some [Indet]
  ∧ ¬ ∃ w, launch (adjustShadowsHighlightsKernel 1 1) (gridSize 1 1)
             blockSize [Def 255] = Some [Def w] ∧ 255 ≤ w.
Proof.
  assert (E : launch (adjustShadowsHighlightsKernel 1 1) (gridSize 1 1)
                blockSize [Def 255] = Some [Indet])
    by (vm_compute; reflexivity).
  split; [done|]. intros (w & Hw & _). rewrite E in Hw. discriminate.
Qed.
(** ** Rounding to binary32 *)

Lemma digits2_pos_size p : digits2_pos p = Pos.size p.
Proof. induction p; simpl; congruence. Qed.

Lemma digits2_pos_bounds p :
  2 ^ (Zpos (digits2_pos p) - 1) ≤ Zpos p < 2 ^ Zpos (digits2_pos p).
Proof.
  rewrite digits2_pos_size. split.
  - pose proof (Pos.size_le p) as H.
    apply Pos2Z.pos_le_pos in H. rewrite Pos2Z.inj_pow in H.
    replace (Zpos (Pos.size p)) with (Zpos (Pos.size p) - 1 + 1) in H by lia.
    rewrite Z.pow_add_r in H by lia. lia.
  - pose proof (Pos.size_gt p) as H.
    apply Pos2Z.pos_lt_pos in H. by rewrite Pos2Z.inj_pow in H.
Qed.

Lemma digits2_pos_unique p k :
  2 ^ (k - 1) ≤ Zpos p < 2 ^ k → Zpos (digits2_pos p) = k.
Proof.
  intros [Hlo Hhi]. pose proof (digits2_pos_bounds p) as [Hlo' Hhi'].
  assert (0 < k).
  { destruct (decide (0 < k)) as [|Hk]; [done|].
    assert (2 ^ k ≤ 1); [|lia].
    destruct (decide (k = 0)) as [->|]; [done|].
    rewrite Z.pow_neg_r by lia. lia. }
  assert (Zpos (digits2_pos p) - 1 < k).
  { apply (Z.pow_lt_mono_r_iff 2); lia. }
  assert (k - 1 < Zpos (digits2_pos p)).
  { apply (Z.pow_lt_mono_r_iff 2); lia. }
  lia.
Qed.

Lemma shr_1_inv M P rec :
  0 < P → shr_inv M P rec → shr_inv M (2 * P) (shr_1 rec).
Proof.
  destruct rec as [m r s].
  intros HP (rem & Hm & HM & Hrem & Hr & Hnr & Hs). cbn [shr_m shr_r shr_s] in *.
  assert (s = false → r = false → rem = 0) as Hz.
  { intros Hs' Hr'. specialize (Hs Hs'). specialize (Hnr Hr'). lia. }
  destruct m as [|[p|p|]|p]; [| | | |lia]; unfold shr_inv;
    cbn [shr_1 shr_m shr_r shr_s].
  - exists rem. split_and!; try lia; try done.
    intros [Hr' Hs']%orb_false_iff. left. auto.
  - exists (P + rem). split_and!; try lia; try done.
    intros [Hr' Hs']%orb_false_iff. right. rewrite Hz by done. lia.
  - exists rem. split_and!; try lia; try done.
    intros [Hr' Hs']%orb_false_iff. left. auto.
  - exists (P + rem). split_and!; try lia; try done.
    intros [Hr' Hs']%orb_false_iff. right. rewrite Hz by done. lia.
Qed.

Lemma pow2_xO p : 2 ^ Zpos p~0 = 2 ^ Zpos p * 2 ^ Zpos p.
Proof. rewrite <- Z.pow_add_r by lia. f_equal. lia. Qed.

Lemma pow2_xI p : 2 ^ Zpos p~1 = 2 * (2 ^ Zpos p * 2 ^ Zpos p).
Proof.
  rewrite <- Z.pow_add_r, <- Z.pow_succ_r by lia. f_equal. lia.
Qed.

Lemma iter_shr_1_inv M p : ∀ P rec,
  0 < P → shr_inv M P rec
  → shr_inv M (P * 2 ^ Zpos p) (SpecFloat.iter_pos shr_1 p rec).
Proof.
  induction p as [p IH|p IH|]; intros P rec HP Hinv; cbn [SpecFloat.iter_pos].
  - replace (P * 2 ^ Z.pos p~1) with (2 * P * 2 ^ Zpos p * 2 ^ Zpos p)
      by (rewrite pow2_xI; ring).
    apply IH; [|apply IH; [lia|by apply shr_1_inv]].
    apply Z.mul_pos_pos; [lia|]. by apply Z.pow_pos_nonneg.
  - replace (P * 2 ^ Z.pos p~0) with (P * 2 ^ Zpos p * 2 ^ Zpos p)
      by (rewrite pow2_xO; ring).
    apply IH; [|by apply IH].
    apply Z.mul_pos_pos; [lia|]. by apply Z.pow_pos_nonneg.
  - replace (P * 2 ^ 1) with (2 * P) by lia. by apply shr_1_inv.
Qed.

Lemma shr_inv_init (M : Z) :
  0 ≤ M → shr_inv M 1 (shr_record_of_loc M loc_Exact).
Proof. intros HM. exists 0. cbn. split_and!; try lia; done. Qed.

Lemma round_first (m : positive) (e : Z) :
  24 ≤ Zpos (digits2_pos m) → -125 ≤ e →
  ∃ rec,
    shr_fexp 24 128 (Zpos m) e loc_Exact
    = (rec, e + (Zpos (digits2_pos m) - 24))
    ∧ 2 ^ 23 ≤ round_nearest_even (shr_m rec) (loc_of_shr_record rec) ≤ 2 ^ 24
    ∧ 2 * Z.abs (round_nearest_even (shr_m rec) (loc_of_shr_record rec)
                   * 2 ^ (Zpos (digits2_pos m) - 24) - Zpos m)
      ≤ 2 ^ (Zpos (digits2_pos m) - 24).
Proof.
  intros Hd He. unfold shr_fexp. cbn [Zdigits2].
  pose proof (digits2_pos_bounds m) as Hb.
  set (d := Zpos (digits2_pos m)) in *.
  unfold fexp, emin. rewrite Z.max_l by lia.
  replace (d + e - 24 - e) with (d - 24) by lia.
  destruct (d - 24) as [|p|p] eqn:Hn; [| |lia].
  - assert (d = 24) as Hd24 by lia. rewrite Hd24 in Hb.
    change (2 ^ (24 - 1)) with 8388608 in Hb.
    change (2 ^ 24) with 16777216 in *. change (2 ^ 23) with 8388608.
    eexists. split; [unfold shr; f_equal; lia|].
    cbn. lia.
  - assert (d = 24 + Zpos p) as Hdp by lia.
    pose proof (iter_shr_1_inv (Zpos m) p 1 _ ltac:(lia)
                  (shr_inv_init (Zpos m) ltac:(lia))) as Hinv.
    eexists. split; [unfold shr; f_equal; lia|].
    destruct (SpecFloat.iter_pos shr_1 p _) as [q r s].
    destruct Hinv as (rem & Hq & HM & Hrem & Hr & Hnr & Hs).
    cbn [shr_m shr_r shr_s] in *.
    rewrite Hdp in Hb.
    replace (24 + Zpos p - 1) with (23 + Zpos p) in Hb by lia.
    rewrite !Z.pow_add_r in Hb by lia.
    change (2 ^ 24) with 16777216 in *. change (2 ^ 23) with 8388608 in *.
    assert (0 < 2 ^ Zpos p) as HP by (by apply Z.pow_pos_nonneg).
    set (P := 2 ^ Zpos p) in *.
    rewrite Z.mul_1_l in HM, Hrem, Hr, Hnr, Hs.
    assert (8388608 ≤ q) by nia.
    assert (q < 16777216) by nia.
    destruct r, s; cbn [loc_of_shr_record round_nearest_even].
    + specialize (Hr eq_refl). split; [lia|]. 
      replace ((q + 1) * P - Zpos m) with (P - rem) by lia. lia.
    + specialize (Hr eq_refl). destruct (Hs eq_refl) as [Hz|Hh]; [lia|].
      destruct (Z.even q).
      * split; [lia|]. replace (q * P - Zpos m) with (- rem) by lia. lia.
      * split; [lia|].
        replace ((q + 1) * P - Zpos m) with (P - rem) by lia. lia.
    + specialize (Hnr eq_refl). split; [lia|].
      replace (q * P - Zpos m) with (- rem) by lia. lia.
    + specialize (Hnr eq_refl). split; [lia|].
      replace (q * P - Zpos m) with (- rem) by lia. lia.
Qed.

Lemma round_finish (sx : bool) (m1 e1 : Z) :
  2 ^ 23 ≤ m1 ≤ 2 ^ 24 → -125 ≤ e1 ≤ 100 →
  ∃ m' e',
    (let '(mrs, e'') := shr_fexp 24 128 m1 e1 loc_Exact in
     match shr_m mrs with
     | Z0 => S754_zero sx
     | Zpos m => if e'' <=? 128 - 24 then S754_finite sx m e''
                 else S754_infinity sx
     | Zneg _ => S754_nan
     end) = S754_finite sx m' e'
    ∧ e1 ≤ e' ≤ e1 + 1 ∧ Zpos m' * 2 ^ (e' - e1) = m1.
Proof.
  change (2 ^ 24) with 16777216. change (2 ^ 23) with 8388608.
  intros Hm He. destruct (decide (m1 = 16777216)) as [->|Hne].
  - exists 8388608%positive, (e1 + 1). unfold shr_fexp.
    change (Zdigits2 16777216) with 25.
    unfold fexp, emin. rewrite Z.max_l by lia.
    replace (25 + e1 - 24 - e1) with 1 by lia.
    cbn [shr shr_record_of_loc SpecFloat.iter_pos shr_1 shr_m].
    replace (e1 + 1 <=? 128 - 24) with true by (symmetry; apply Z.leb_le; lia).
    split; [done|]. split; [lia|].
    replace (e1 + 1 - e1) with 1 by lia. done.
  - destruct m1 as [|p|p]; [lia| |lia].
    exists p, e1. unfold shr_fexp. cbn [Zdigits2].
    rewrite (digits2_pos_unique p 24)
      by (change (2 ^ (24 - 1)) with 8388608;
          change (2 ^ 24) with 16777216; lia).
    unfold fexp, emin. rewrite Z.max_l by lia.
    replace (24 + e1 - 24 - e1) with 0 by lia.
    cbn [shr shr_record_of_loc shr_m].
    replace (e1 <=? 128 - 24) with true by (symmetry; apply Z.leb_le; lia).
    split; [done|]. split; [lia|].
    rewrite Z.sub_diag. lia.
Qed.

(** Rounding a mantissa of at least 24 bits to binary32. *)
Lemma binary_round_aux_pos (m : positive) (e : Z) :
  24 ≤ Zpos (digits2_pos m) → -125 ≤ e → Zpos (digits2_pos m) + e ≤ 120 →
  ∃ m' e',
    binary_round_aux 24 128 false (Zpos m) e loc_Exact = S754_finite false m' e'
    ∧ e ≤ e'
    ∧ 2 ^ 24 * Z.abs (Zpos m' * 2 ^ (e' - e) - Zpos m) ≤ Zpos m.
Proof.
  intros Hd He Hde.
  destruct (round_first m e Hd He) as (rec & Hshr & Hm1 & Herr).
  unfold binary_round_aux. rewrite Hshr.
  set (m1 := round_nearest_even (shr_m rec) (loc_of_shr_record rec)) in *.
  set (n := Zpos (digits2_pos m) - 24) in *.
  destruct (round_finish false m1 (e + n) Hm1 ltac:(lia))
    as (m' & e' & Heq & He' & Hval).
  exists m', e'. split; [exact Heq|]. split; [lia|].
  pose proof (digits2_pos_bounds m) as [Hlo _].
  replace (Zpos (digits2_pos m) - 1) with (23 + n) in Hlo by lia.
  rewrite Z.pow_add_r in Hlo by lia.
  replace (e' - e) with ((e' - (e + n)) + n) by lia.
  rewrite Z.pow_add_r by lia. rewrite Z.mul_assoc, Hval.
  change (2 ^ 24) with 16777216 in *. change (2 ^ 23) with 8388608 in *.
  lia.
Qed.

Lemma pos_iter_xO (m d : positive) :
  Zpos (Pos.iter xO m d) = Zpos m * 2 ^ Zpos d.
Proof.
  induction d as [|d IH] using Pos.peano_ind.
  - cbn [Pos.iter]. lia.
  - rewrite Pos.iter_succ, Pos2Z.inj_succ, Z.pow_succ_r by lia.
    rewrite Pos2Z.inj_xO, IH. ring.
Qed.

Lemma shl_align_value (m : positive) (e ez : Z) :
  ez ≤ e →
  Zpos (shl_align m e ez).1 = Zpos m * 2 ^ (e - ez).
Proof.
  intros Hle. unfold shl_align.
  destruct (ez - e) as [|p|p] eqn:Hd; cbn [fst].
  - replace (e - ez) with 0 by lia. lia.
  - lia.
  - rewrite pos_iter_xO. do 2 f_equal. lia.
Qed.

Lemma abs_scale (a b c : Z) :
  0 < c → 2 ^ 24 * Z.abs (a - b) ≤ b
  → 2 ^ 24 * Z.abs (a * c - b * c) ≤ b * c.
Proof.
  intros Hc H. rewrite <- Z.mul_sub_distr_r, Z.abs_mul, (Z.abs_eq c) by lia.
  rewrite Z.mul_assoc. apply Z.mul_le_mono_nonneg_r; lia.
Qed.

Lemma digits_of_value (m : positive) (e u : Z) :
  0 ≤ e + 128 → Zpos m * 2 ^ (e + 128) < 2 ^ u
  → Zpos (digits2_pos m) + e + 128 ≤ u.
Proof.
  intros He Hlt. pose proof (digits2_pos_bounds m) as [Hlo _].
  assert (2 ^ (Zpos (digits2_pos m) - 1 + (e + 128)) < 2 ^ u) as Hpow.
  { rewrite Z.pow_add_r by lia.
    eapply Z.le_lt_trans; [|exact Hlt].
    apply Z.mul_le_mono_nonneg_r; [|done].
    apply Z.pow_nonneg. lia. }
  apply Z.pow_lt_mono_r_iff in Hpow; [lia..|].
  destruct (decide (0 ≤ u)) as [|Hu]; [done|].
  rewrite (Z.pow_neg_r 2 u) in Hlt by lia.
  assert (0 < 2 ^ (e + 128)) by (apply Z.pow_pos_nonneg; lia). nia.
Qed.

(** Rounding a positive number [m * 2^e] to binary32: the relative error
    is at most [2^-24]. *)
Lemma binary_round_pos (m : positive) (e : Z) :
  -100 ≤ e → Zpos m * 2 ^ (e + 128) < 2 ^ 148 →
  ∃ m' e',
    binary_round 24 128 false m e = S754_finite false m' e'
    ∧ e - 23 ≤ e'
    ∧ 2 ^ 24 * Z.abs (Zpos m' * 2 ^ (e' + 128) - Zpos m * 2 ^ (e + 128))
      ≤ Zpos m * 2 ^ (e + 128).
Proof.
  intros He Hlt.
  pose proof (digits_of_value m e 148 ltac:(lia) Hlt) as Hd.
  unfold binary_round.
  set (d := Zpos (digits2_pos m)) in *.
  assert (0 < d) as Hd0 by done.
  unfold fexp, emin. rewrite Z.max_l by lia.
  unfold shl_align. replace (d + e - 24 - e) with (d - 24) by lia.
  destruct (d - 24) as [|p|p] eqn:Hn.
  - destruct (binary_round_aux_pos m e) as (m' & e' & Heq & He' & Herr);
      [fold d; lia..|].
    exists m', e'. split; [done|]. split; [lia|].
    replace (e' + 128) with ((e' - e) + (e + 128)) by lia.
    rewrite Z.pow_add_r, Z.mul_assoc by lia.
    apply abs_scale; [apply Z.pow_pos_nonneg; lia|done].
  - destruct (binary_round_aux_pos m e) as (m' & e' & Heq & He' & Herr);
      [fold d; lia..|].
    exists m', e'. split; [done|]. split; [lia|].
    replace (e' + 128) with ((e' - e) + (e + 128)) by lia.
    rewrite Z.pow_add_r, Z.mul_assoc by lia.
    apply abs_scale; [apply Z.pow_pos_nonneg; lia|done].
  - set (mz := Pos.iter xO m p). set (ez := d + e - 24).
    assert (Zpos mz = Zpos m * 2 ^ Zpos p) as Hmz by apply pos_iter_xO.
    assert (Zpos (digits2_pos mz) = 24) as Hdz.
    { apply digits2_pos_unique. rewrite Hmz.
      pose proof (digits2_pos_bounds m) as [Hlo Hhi]. fold d in Hlo, Hhi.
      assert (0 < 2 ^ Zpos p) by (by apply Z.pow_pos_nonneg).
      assert (2 ^ (24 - 1) = 2 ^ (d - 1) * 2 ^ Zpos p) as ->
        by (rewrite <- Z.pow_add_r by lia; f_equal; lia).
      assert (2 ^ 24 = 2 ^ d * 2 ^ Zpos p) as ->
        by (rewrite <- Z.pow_add_r by lia; f_equal; lia).
      split; [apply Z.mul_le_mono_nonneg_r; lia
             |apply Z.mul_lt_mono_pos_r; lia]. }
    destruct (binary_round_aux_pos mz ez) as (m' & e' & Heq & He' & Herr);
      [rewrite ?Hdz; unfold ez; lia..|].
    exists m', e'. split; [done|]. split; [unfold ez in *; lia|].
    replace (e' + 128) with ((e' - ez) + (ez + 128)) by (unfold ez in *; lia).
    replace (e + 128) with (Zpos p + (ez + 128)) by (unfold ez; lia).
    rewrite (Z.pow_add_r 2 (e' - ez)), (Z.pow_add_r 2 (Zpos p))
      by (unfold ez in *; lia).
    rewrite !Z.mul_assoc, <- Hmz.
    apply abs_scale; [apply Z.pow_pos_nonneg; unfold ez; lia|done].
Qed.

Lemma f32_value_nonneg f : 0 ≤ f32_value f.
Proof.
  destruct f as [| | |[] m e]; cbn [f32_value]; lia.
Qed.

(** The sum of two small values is their exact sum rounded once. *)
Lemma f32_add_small (L : Z) (x y : spec_float) :
  0 ≤ L ≤ 100 → f32_small L x → f32_small L y →
  f32_value x + f32_value y < 2 ^ 147 →
  f32_small (L + 23) (F32.add x y)
  ∧ 2 ^ 24 * Z.abs (f32_value (F32.add x y) - (f32_value x + f32_value y))
    ≤ f32_value x + f32_value y.
Proof.
  intros HL Hx Hy Hsum.
  destruct x as [[]| | |[] mx ex]; try done;
    destruct y as [[]| | |[] my ey]; try done;
    cbn [f32_small f32_value] in *;
    try (unfold F32.add; cbn [SFadd f32_small f32_value];
         rewrite ?Z.add_0_l, ?Z.add_0_r, Z.sub_diag; cbn [Z.abs]; lia).
  destruct Hx as [Hex Hxv], Hy as [Hey Hyv].
  unfold F32.add, SFadd. cbn [cond_Zopp].
    set (ez := Z.min ex ey).
    assert (Zpos (shl_align mx ex ez).1 = Zpos mx * 2 ^ (ex - ez)) as Hax
      by (apply shl_align_value; lia).
    assert (Zpos (shl_align my ey ez).1 = Zpos my * 2 ^ (ey - ez)) as Hay
      by (apply shl_align_value; lia).
    rewrite <- Pos2Z.inj_add. cbn [binary_normalize].
    set (M := ((shl_align mx ex ez).1 + (shl_align my ey ez).1)%positive).
    assert (Zpos M * 2 ^ (ez + 128)
            = Zpos mx * 2 ^ (ex + 128) + Zpos my * 2 ^ (ey + 128)) as HM.
    { unfold M. rewrite Pos2Z.inj_add, Hax, Hay, Z.mul_add_distr_r.
      rewrite <- !Z.mul_assoc, <- !Z.pow_add_r by lia.
      do 3 f_equal; lia. }
    destruct (binary_round_pos M ez) as (m' & e' & Heq & He' & Herr);
      [lia|rewrite HM; lia|].
    fold F32.prec F32.emax in Heq |- *.
    rewrite Heq. cbn [f32_small f32_value]. rewrite HM in Herr.
    split; [|exact Herr]. split; [lia|].
    change (2 ^ 24) with 16777216 in Herr.
    change (2 ^ 147) with (2 ^ 147) in Hsum.
    assert (2 ^ 148 = 2 * 2 ^ 147) as -> by (by rewrite <- Z.pow_succ_r).
    lia.
Qed.

Lemma f32_trunc_value (L : Z) (f : spec_float) :
  0 ≤ L ≤ 128 → f32_small L f →
  F32.trunc f = Some (f32_value f / f32_unit).
Proof.
  intros HL Hf. destruct f as [[]| | |[] m e]; try done.
  cbn [f32_small] in Hf. destruct Hf as [He _].
  unfold F32.trunc, f32_value, f32_unit. f_equal.
  assert (2 ^ 128 ≠ 0) as Hu by (apply Z.pow_nonzero; lia).
  destruct e as [|p|p].
  - cbn [Z.shiftl]. by rewrite Z.add_0_l, Z.div_mul.
  - by rewrite Z.shiftl_mul_pow2, Z.pow_add_r, Z.mul_assoc, Z.div_mul by lia.
  - rewrite Z.shiftr_div_pow2 by lia.
    assert (2 ^ 128 = 2 ^ Zpos p * 2 ^ (Zneg p + 128)) as ->
      by (rewrite <- Z.pow_add_r by lia; f_equal; lia).
    rewrite Z.div_mul_cancel_r; [done|apply Z.pow_nonzero; lia..].
Qed.

Lemma forallb_seqZ (P : Z → bool) a n v :
  forallb P (seqZ a n) = true → a ≤ v < a + n → P v = true.
Proof.
  intros Hall Hv. rewrite forallb_forall in Hall. apply Hall.
  apply list_elem_of_In, elem_of_seqZ. lia.
Qed.

Lemma weights_near_table : forallb weights_near (seqZ 0 256) = true.
Proof. vm_compute. reflexivity. Qed.

Lemma weighted_near_spec (k v : Z) (X : spec_float) :
  weighted_near k v X = true → f32_near (k * v) (2 ^ 122) 50 X.
Proof.
  unfold weighted_near, f32_near, f32_unit.
  destruct X as [[]| | |[] m e]; try done.
  - intros ->%Z.eqb_eq. cbn. split; [done|lia].
  - intros [[He Hlt%Z.ltb_lt]%andb_true_iff Herr%Z.leb_le]%andb_true_iff.
    apply Z.leb_le in He. cbn [f32_small f32_value]. split; [lia|done].
Qed.

Lemma weight_products_near (v : Z) :
  0 ≤ v ≤ 255 →
  (∀ X, X ∈ weight_products F32.c0_299 v → f32_near (299 * v) (2 ^ 122) 50 X)
  ∧ (∀ X, X ∈ weight_products F32.c0_587 v → f32_near (587 * v) (2 ^ 122) 50 X)
  ∧ (∀ X, X ∈ weight_products F32.c0_114 v → f32_near (114 * v) (2 ^ 122) 50 X).
Proof.
  intros Hv.
  pose proof (forallb_seqZ _ _ _ v weights_near_table ltac:(lia)) as H.
  unfold weights_near in H.
  apply andb_true_iff in H as [[H1 H2]%andb_true_iff H3].
  rewrite forallb_forall in H1, H2, H3.
  split_and!; intros X HX%list_elem_of_In; apply weighted_near_spec; auto.
Qed.

Lemma fma_cases (a b c : spec_float) :
  F32.fma a b c = F32.add (f32_product_exact a b) c
  ∨ F32.fma a b c = F32.add (F32.mul a b) c.
Proof. destruct a, b, c; cbn [F32.fma f32_product_exact]; auto. Qed.

Lemma fma_weight (w : spec_float) (v : Z) (c : spec_float) :
  ∃ X, X ∈ weight_products w v ∧ F32.fma w (float_of_uchar v) c = F32.add X c.
Proof.
  unfold weight_products.
  destruct (fma_cases w (float_of_uchar v) c) as [->| ->];
    eexists; (split; [|reflexivity]); [right; left|left].
Qed.

Lemma mul_weight (w : spec_float) (v : Z) :
  F32.mul w (float_of_uchar v) ∈ weight_products w v.
Proof. unfold weight_products. left. Qed.

Lemma f32_small_mono (L L' : Z) (f : spec_float) :
  L ≤ L' → f32_small L f → f32_small L' f.
Proof.
  intros HL. destruct f as [[]| | |[] m e]; try done.
  cbn [f32_small]. intros [He Hv]. split; [lia|done].
Qed.

(** The sum of two approximations approximates the sum. *)
Lemma f32_near_add (L tx ty Bx By : Z) (X Y : spec_float) :
  0 ≤ L ≤ 100 → 0 ≤ tx → 0 ≤ ty → tx + ty ≤ 255000 →
  Bx ≤ 2 ^ 125 → By ≤ 2 ^ 125 →
  f32_near tx Bx L X → f32_near ty By L Y →
  f32_near (tx + ty) (Bx + By + 2 ^ 122) (L + 23) (F32.add X Y).
Proof.
  unfold f32_near, f32_unit. intros HL Htx Hty Ht HBx HBy [HX HXe] [HY HYe].
  change (2 ^ 125) with 42535295865117307932921825928971026432 in *.
  change (2 ^ 122) with 5316911983139663491615228241121378304 in *.
  change (2 ^ 128) with 340282366920938463463374607431768211456 in *.
  destruct (f32_add_small L X Y HL HX HY) as [Hs Herr].
  { change (2 ^ 147) with 178405961588244985132285746181186892047843328. lia. }
  split; [done|].
  change (2 ^ 24) with 16777216 in Herr. lia.
Qed.

(** The binary32 evaluation of the luminance is within a thousandth of
    the exact weighted sum, under every contraction. *)
Lemma rgbToGray_value_near (c : fp_contract) (r g b : Z) :
  0 ≤ r ≤ 255 → 0 ≤ g ≤ 255 → 0 ≤ b ≤ 255 →
  f32_near (299 * r + 587 * g + 114 * b) (5 * 2 ^ 122) 96
    (rgbToGray_value c r g b).
Proof.
  intros Hr Hg Hb.
  destruct (weight_products_near r Hr) as (HR & _ & _).
  destruct (weight_products_near g Hg) as (_ & HG & _).
  destruct (weight_products_near b Hb) as (_ & _ & HB).
  pose proof (mul_weight F32.c0_299 r) as HmR.
  pose proof (mul_weight F32.c0_587 g) as HmG.
  pose proof (mul_weight F32.c0_114 b) as HmB.
  assert (∀ X Y Z, X ∈ weight_products F32.c0_299 r
                   → Y ∈ weight_products F32.c0_587 g
                   → Z ∈ weight_products F32.c0_114 b
                   → f32_near (299 * r + 587 * g + 114 * b) (5 * 2 ^ 122) 96
                       (F32.add (F32.add X Y) Z)
                     ∧ f32_near (299 * r + 587 * g + 114 * b) (5 * 2 ^ 122) 96
                       (F32.add (F32.add Y X) Z)
                     ∧ f32_near (299 * r + 587 * g + 114 * b) (5 * 2 ^ 122) 96
                       (F32.add Z (F32.add X Y))
                     ∧ f32_near (299 * r + 587 * g + 114 * b) (5 * 2 ^ 122) 96
                       (F32.add Z (F32.add Y X))) as Hsum.
  { intros X Y Z HX%HR HY%HG HZ%HB.
    assert (f32_near (114 * b) (2 ^ 122) 73 Z) as HZ'.
    { destruct HZ as [HZs HZe]. split; [|done].
      by apply (f32_small_mono 50). }
    assert (f32_near (299 * r + 587 * g) (2 ^ 122 + 2 ^ 122 + 2 ^ 122) 73
              (F32.add X Y)) as HXY
      by (apply (f32_near_add 50); [lia..|done|done]).
    assert (f32_near (587 * g + 299 * r) (2 ^ 122 + 2 ^ 122 + 2 ^ 122) 73
              (F32.add Y X)) as HYX
      by (apply (f32_near_add 50); [lia..|done|done]).
    assert (f32_near ((299 * r + 587 * g) + 114 * b) ((2 ^ 122 + 2 ^ 122 + 2 ^ 122) + 2 ^ 122 + 2 ^ 122) (73 + 23)
              (F32.add (F32.add X Y) Z)) as H1
      by (apply (f32_near_add 73); [lia..|exact HXY|exact HZ']).
    assert (f32_near ((587 * g + 299 * r) + 114 * b) ((2 ^ 122 + 2 ^ 122 + 2 ^ 122) + 2 ^ 122 + 2 ^ 122) (73 + 23)
              (F32.add (F32.add Y X) Z)) as H2
      by (apply (f32_near_add 73); [lia..|exact HYX|exact HZ']).
    assert (f32_near (114 * b + (299 * r + 587 * g)) (2 ^ 122 + (2 ^ 122 + 2 ^ 122 + 2 ^ 122) + 2 ^ 122) (73 + 23)
              (F32.add Z (F32.add X Y))) as H3
      by (apply (f32_near_add 73); [lia..|exact HZ'|exact HXY]).
    assert (f32_near (114 * b + (587 * g + 299 * r)) (2 ^ 122 + (2 ^ 122 + 2 ^ 122 + 2 ^ 122) + 2 ^ 122) (73 + 23)
              (F32.add Z (F32.add Y X))) as H4
      by (apply (f32_near_add 73); [lia..|exact HZ'|exact HYX]).
    change (73 + 23) with 96 in *.
    unfold f32_near in *.
    split_and!; first [tauto|lia]. }
  unfold rgbToGray_value.
  destruct c as [[| |] []]; cbn [inner outer].
  - destruct (fma_weight F32.c0_114 b
                (F32.add (F32.mul F32.c0_299 (float_of_uchar r))
                         (F32.mul F32.c0_587 (float_of_uchar g))))
      as (Z & HZ & ->).
    apply (Hsum _ _ _ HmR HmG HZ).
  - apply (Hsum _ _ _ HmR HmG HmB).
  - destruct (fma_weight F32.c0_299 r (F32.mul F32.c0_587 (float_of_uchar g)))
      as (X & HX & ->).
    destruct (fma_weight F32.c0_114 b
                (F32.add X (F32.mul F32.c0_587 (float_of_uchar g))))
      as (Z & HZ & ->).
    apply (Hsum _ _ _ HX HmG HZ).
  - destruct (fma_weight F32.c0_299 r (F32.mul F32.c0_587 (float_of_uchar g)))
      as (X & HX & ->).
    apply (Hsum _ _ _ HX HmG HmB).
  - destruct (fma_weight F32.c0_587 g (F32.mul F32.c0_299 (float_of_uchar r)))
      as (Y & HY & ->).
    destruct (fma_weight F32.c0_114 b
                (F32.add Y (F32.mul F32.c0_299 (float_of_uchar r))))
      as (Z & HZ & ->).
    apply (Hsum _ _ _ HmR HY HZ).
  - destruct (fma_weight F32.c0_587 g (F32.mul F32.c0_299 (float_of_uchar r)))
      as (Y & HY & ->).
    apply (Hsum _ _ _ HmR HY HmB).
Qed.

(** The stored luminance is the exact value rounded down, or one less. *)
Lemma rgbToGray_pixel_near (c : fp_contract) (r g b : Z) :
  0 ≤ r ≤ 255 → 0 ≤ g ≤ 255 → 0 ≤ b ≤ 255 →
  ∃ w, rgbToGray_pixel c (Def r) (Def g) (Def b) = Def w
       ∧ luminance_exact r g b - 1 ≤ w ≤ luminance_exact r g b.
Proof.
  intros Hr Hg Hb.
  destruct (rgbToGray_value_near c r g b Hr Hg Hb) as [Hs Herr].
  pose proof (f32_value_nonneg (rgbToGray_value c r g b)) as Hnn.
  cbn [rgbToGray_pixel]. unfold uchar_of_float.
  rewrite (f32_trunc_value 96) by (done || lia).
  set (V := f32_value (rgbToGray_value c r g b)) in *.
  unfold luminance_exact. unfold f32_unit in *.
  set (T := 299 * r + 587 * g + 114 * b) in *.
  change (2 ^ 122) with 5316911983139663491615228241121378304 in *.
  change (2 ^ 128) with 340282366920938463463374607431768211456 in *.
  assert (T / 1000 - 1 ≤ V / 340282366920938463463374607431768211456
          ≤ T / 1000) as Hw.
  { pose proof (Z.div_mod T 1000 ltac:(lia)) as Hdm.
    pose proof (Z.mod_pos_bound T 1000 ltac:(lia)) as Hmod.
    set (q := T / 1000) in *. set (k := T mod 1000) in *.
    clearbody q k. split.
    - apply Z.div_le_lower_bound; lia.
    - apply Z.lt_succ_r, Z.div_lt_upper_bound; lia. }
  exists (V / 340282366920938463463374607431768211456).
  split; [|exact Hw].
  assert (0 ≤ V / 340282366920938463463374607431768211456)
    by (apply Z.div_pos; lia).
  assert (T / 1000 ≤ 255)
    by (apply Z.div_le_upper_bound; [lia|unfold T; lia]).
  replace (0 <=? _) with true by (symmetry; apply Z.leb_le; lia).
  replace (_ <=? 255) with true by (symmetry; apply Z.leb_le; lia).
  done.
Qed.

(** ** The crop window of [main] *)

Lemma main_crop_args_eq W H :
  0 < W ≤ Int.INT_MAX → 0 < H ≤ Int.INT_MAX →
  main_crop_args W H
  = CropArgs (Z.min W H) (Z.min W H) ((Z.max W H - Z.min W H) / 2) 0.
Proof.
  intros HW HH. unfold main_crop_args, Int.div, Int.sub.
  unfold Int.INT_MAX in *.
  rewrite (wrap_small (_ - _)) by (unfold Int.INT_MAX; lia).
  rewrite Z.quot_div_nonneg by lia.
  rewrite wrap_small; [done|].
  unfold Int.INT_MAX.
  assert (0 ≤ (Z.max W H - Z.min W H) / 2) by (apply Z.div_pos; lia).
  assert ((Z.max W H - Z.min W H) / 2 ≤ Z.max W H - Z.min W H)
    by (apply Z.div_le_upper_bound; lia).
  lia.
Qed.

(** The arithmetic behind the safety of the crop [main] launches: with the
    offset on the x axis, the last index read stays inside the source in
    both orientations. *)
Lemma main_crop_index_bounds W H x y :
  0 < W → 0 < H →
  0 ≤ x < Z.min W H → 0 ≤ y < Z.min W H →
  0 ≤ (y + 0) * W + (x + (Z.max W H - Z.min W H) / 2) < W * H.
Proof.
  intros HW HH Hx Hy.
  assert (Hoff : 0 ≤ (Z.max W H - Z.min W H) / 2) by (apply Z.div_pos; lia).
  assert (Hoff2 : 2 * ((Z.max W H - Z.min W H) / 2) ≤ Z.max W H - Z.min W H)
    by (apply Z.mul_div_le; lia).
  set (off := (Z.max W H - Z.min W H) / 2) in *.
  destruct (Z.le_ge_cases W H).
  - rewrite Z.min_l, Z.max_r in * by done. nia.
  - rewrite Z.min_r, Z.max_l in * by done. nia.
Qed.

(** C1. For the portrait image 3 wide and 5 tall [main] passes the offset 1
    as [offsetX] and 0 as [offsetY]: the window is 3 by 3, but the offset is
    on the shorter axis and the longer axis has none. On the image whose
    cells hold their own index 0..14 the crop launched with these
    arguments gives the cells 1..9, not the middle rows 3..11. *)
Theorem main_crop_args_portrait :
  main_crop_args 3 5 = CropArgs 3 3 1 0
  ∧ offsetX (main_crop_args 3 5) ≠ 0
  ∧ offsetY (main_crop_args 3 5) ≠ (5 - 3) / 2
  ∧ launch (cropKernel (Def <$> seqZ 0 15) 3 5 3 3 1 0) (gridSize 3 5)
      blockSize (cudaMalloc 9) = Some (Def <$> seqZ 1 9).
Proof. split_and!; vm_compute; (reflexivity || discriminate). Qed.

(** C10. With the arguments [main] passes, every index read by the crop
    kernel lies inside the source of [W * H] cells, in both orientations;
    when [W * H] is a value of [int] the kernel computes that index
    without wrap-around and its load is defined. *)
Theorem crop_reads_inside_source (W H x y : Z) :
  0 < W ≤ Int.INT_MAX → 0 < H ≤ Int.INT_MAX →
  0 ≤ x < dstWidth (main_crop_args W H) →
  0 ≤ y < dstHeight (main_crop_args W H) →
  let a := main_crop_args W H in
  dstWidth a = Z.min W H ∧ dstHeight a = Z.min W H
  ∧ offsetX a = (Z.max W H - Z.min W H) / 2 ∧ offsetY a = 0
  ∧ 0 ≤ (y + offsetY a) * W + (x + offsetX a) < W * H
  ∧ (W * H ≤ Int.INT_MAX →
       srcIdx y (offsetY a) W x (offsetX a)
         = (y + offsetY a) * W + (x + offsetX a)
       ∧ ∀ src : buffer, length src = Z.to_nat (W * H) →
           is_Some (load src (srcIdx y (offsetY a) W x (offsetX a)))).
Proof.
  intros HW HH. rewrite main_crop_args_eq by done. simpl.
  intros Hx Hy.
  assert (Hoff : 0 ≤ (Z.max W H - Z.min W H) / 2) by (apply Z.div_pos; lia).
  pose proof (main_crop_index_bounds W H x y) as Hidx.
  specialize (Hidx ltac:(lia) ltac:(lia) Hx Hy).
  pose proof (mul_bounds (y + 0) W).
  do 4 (split; [reflexivity|]). split; [exact Hidx|].
  intros HWH. unfold srcIdx. unfold Int.INT_MAX in *.
  rewrite (int_add_small y) by (unfold Int.INT_MAX; lia).
  rewrite (int_add_small x) by (unfold Int.INT_MAX; lia).
  rewrite int_mul_small by (unfold Int.INT_MAX; lia).
  rewrite int_add_small by (unfold Int.INT_MAX; lia).
  split; [done|]. intros src Hsrc. unfold load.
  rewrite (proj2 (Z.leb_le _ _)) by lia.
  apply lookup_lt_is_Some_2. lia.
Qed.

Lemma crop_reads_inside_source_witness :
  let a := main_crop_args 3 5 in
  dstWidth a = Z.min 3 5 ∧ dstHeight a = Z.min 3 5
  ∧ offsetX a = (Z.max 3 5 - Z.min 3 5) / 2 ∧ offsetY a = 0
  ∧ 0 ≤ (2 + offsetY a) * 3 + (2 + offsetX a) < 3 * 5
  ∧ (3 * 5 ≤ Int.INT_MAX →
       srcIdx 2 (offsetY a) 3 2 (offsetX a)
         = (2 + offsetY a) * 3 + (2 + offsetX a)
       ∧ ∀ src : buffer, length src = Z.to_nat (3 * 5) →
           is_Some (load src (srcIdx 2 (offsetY a) 3 2 (offsetX a)))).
Proof.
  apply (crop_reads_inside_source 3 5 2 2); vm_compute; split; congruence.
Defined.

(** ** Claims on whole buffers *)

(** C4, as the claim has it, fails: on the one-pixel image (150, 10, 20)
    the exact luminance is 53.000 and its truncation 53, but the kernel
    stores 52 whichever way the expression is contracted. *)
Lemma rgbToGray_not_exact_luminance :
  299 * 150 + 587 * 10 + 114 * 20 = 53 * 1000
  ∧ luminance_exact 150 10 20 = 53
  ∧ Forall (λ c,
      launch (rgbToGrayKernel c [Def 150; Def 10; Def 20] 1 1)
        (gridSize 1 1) blockSize [Indet] = Some [Def 52]) all_contracts.
Proof.
  split; [reflexivity|]. split; [reflexivity|].
  repeat constructor; vm_compute; reflexivity.
Qed.

(** C4, amended. For a three-channel buffer of [W] by [H] pixels whose
    cells are all bytes, the kernel stores at every (x, y) the value of
    0.299 R + 0.587 G + 0.114 B on the three channel bytes of that pixel
    rounded down, or one less: what is truncated is the binary32 value of
    0.299f * R + 0.587f * G + 0.114f * B, which lies within a thousandth of
    the exact sum and can fall just below a whole number. *)
Theorem rgbToGrayKernel_stores_luminance
    (c : fp_contract) (rgb gray0 : buffer) (W H : Z) :
  0 < W → 0 < H → W * H * 3 ≤ Int.INT_MAX →
  length rgb = Z.to_nat (W * H * 3) → Forall is_byte rgb →
  length gray0 = Z.to_nat (W * H) →
  ∃ gray,
    launch (rgbToGrayKernel c rgb W H) (gridSize W H) blockSize gray0
      = Some gray
    ∧ length gray = Z.to_nat (W * H)
    ∧ ∀ x y, 0 ≤ x < W → 0 ≤ y < H →
        ∃ r g b w,
          channel rgb W x y 0 = Some (Def r)
          ∧ channel rgb W x y 1 = Some (Def g)
          ∧ channel rgb W x y 2 = Some (Def b)
          ∧ pixel gray W x y = Some (Def w)
          ∧ luminance_exact r g b - 1 ≤ w ≤ luminance_exact r g b
          ∧ uchar_of_float (rgbToGray_value c r g b) = Def w.
Proof.
  intros HW HH H3 Hrgb Hbytes Hgray.
  destruct (rgbToGrayKernel_pixels c rgb gray0 W H HW HH H3 Hrgb Hgray)
    as (gray & Hrun & Hlen & Hpix).
  exists gray. split_and!; [done..|].
  intros x y Hx Hy.
  destruct (Hpix x y Hx Hy) as (r & g & b & Hr & Hg & Hb & Hp).
  pose proof (Forall_lookup_1 _ _ _ _ Hbytes Hr) as Br.
  pose proof (Forall_lookup_1 _ _ _ _ Hbytes Hg) as Bg.
  pose proof (Forall_lookup_1 _ _ _ _ Hbytes Hb) as Bb.
  destruct r as [r|], g as [g|], b as [b|]; try done.
  cbn [is_byte] in Br, Bg, Bb.
  destruct (rgbToGray_pixel_near c r g b Br Bg Bb) as (w & Hw & Hnear).
  exists r, g, b, w. rewrite Hp, Hw.
  split_and!; [done..|lia|lia|exact Hw].
Qed.

Lemma rgbToGrayKernel_stores_luminance_witness :
  ∃ gray,
    launch (rgbToGrayKernel fp_strict
              [Def 10; Def 20; Def 30; Def 255; Def 255; Def 255;
               Def 0; Def 0; Def 0; Def 150; Def 10; Def 20] 2 2)
      (gridSize 2 2) blockSize [Indet; Indet; Indet; Indet] = Some gray
    ∧ length gray = Z.to_nat (2 * 2)
    ∧ ∀ x y, 0 ≤ x < 2 → 0 ≤ y < 2 →
        ∃ r g b w,
          channel [Def 10; Def 20; Def 30; Def 255; Def 255; Def 255;
                   Def 0; Def 0; Def 0; Def 150; Def 10; Def 20] 2 x y 0
            = Some (Def r)
          ∧ channel [Def 10; Def 20; Def 30; Def 255; Def 255; Def 255;
                     Def 0; Def 0; Def 0; Def 150; Def 10; Def 20] 2 x y 1
            = Some (Def g)
          ∧ channel [Def 10; Def 20; Def 30; Def 255; Def 255; Def 255;
                     Def 0; Def 0; Def 0; Def 150; Def 10; Def 20] 2 x y 2
            = Some (Def b)
          ∧ pixel gray 2 x y = Some (Def w)
          ∧ luminance_exact r g b - 1 ≤ w ≤ luminance_exact r g b
          ∧ uchar_of_float (rgbToGray_value fp_strict r g b) = Def w.
Proof.
  apply (rgbToGrayKernel_stores_luminance fp_strict
           [Def 10; Def 20; Def 30; Def 255; Def 255; Def 255;
            Def 0; Def 0; Def 0; Def 150; Def 10; Def 20]
           [Indet; Indet; Indet; Indet] 2 2);
    [lia | lia | vm_compute; congruence | reflexivity
    | repeat (constructor; [cbn [is_byte]; lia|]); constructor
    | reflexivity].
Defined.

Lemma cropKernel_copies_rectangle_witness :
  ∃ dst,
    launch (cropKernel [Def 1; Def 2; Def 3; Def 4; Def 5; Def 6] 3 2 2 1 1 1)
      (gridSize 3 2) blockSize [Indet; Indet] = Some dst
    ∧ length dst = Z.to_nat (2 * 1)
    ∧ ∀ x y, 0 ≤ x < 2 → 0 ≤ y < 1 →
        is_Some (pixel dst 2 x y)
        ∧ pixel dst 2 x y
          = pixel [Def 1; Def 2; Def 3; Def 4; Def 5; Def 6] 3 (x + 1) (y + 1).
Proof.
  apply (cropKernel_copies_rectangle
           [Def 1; Def 2; Def 3; Def 4; Def 5; Def 6] [Indet; Indet]
           3 2 2 1 1 1);
    [repeat split; vm_compute; congruence
    | reflexivity | lia | lia | lia | lia | lia | lia | reflexivity].
Defined.

(** ** Errors and the exit status of [main] *)

Lemma quiet_ret {A} (a : A) : quiet (mret a).
Proof. done. Qed.

Lemma quiet_defined {A} (o : option A) : quiet (defined o).
Proof. by destruct o. Qed.

Lemma quiet_bind {A B} (m : M A) (k : A → M B) :
  quiet m → (∀ a, quiet (k a)) → quiet (m ≫= k).
Proof.
  destruct m as [tr [a| | |]]; simpl; intros Hm Hk; try done.
  subst tr. specialize (Hk a). by destruct (k a).
Qed.

Lemma quiet_check {A} w f n (r : M A) : quiet r → quiet (checkCudaErrors w f n r).
Proof.
  intros Hr. unfold checkCudaErrors. destruct (cuda_fails w f n); [|done].
  simpl. split; [done|]. by eexists.
Qed.

Lemma quiet_loadPPM w f : quiet (loadPPM w f).
Proof.
  unfold loadPPM. destruct (file_contents w f) as [s|]; [|done].
  destruct (read_word s) as [magic rest]. case_decide; [|done].
  apply quiet_bind; [apply quiet_defined|]. intros [width r1].
  apply quiet_bind; [apply quiet_defined|]. intros [height r2].
  apply quiet_bind; [apply quiet_defined|]. intros [maxVal r3].
  by destruct (_ && _).
Qed.

Lemma image_trace_bind {A} f (m : M A) (k : A → M unit) :
  quiet m → (∀ a, image_trace f (k a)) → image_trace f (m ≫= k).
Proof.
  destruct m as [tr [a| | |]]; simpl; intros Hm Hk; try done.
  subst tr. specialize (Hk a). by destruct (k a).
Qed.

Lemma image_trace_save w f data width height :
  image_trace f
    (savePGM w (outputFilename f) data width height;;
     emit (Stdout ("Saved image: " +:+ outputFilename f +:+ nl))).
Proof.
  unfold savePGM. destruct (can_create w _); [|done].
  case_decide; [|done]. simpl. by eexists.
Qed.

Lemma processImage_trace c w f : image_trace f (processImage c w f).
Proof.
  unfold processImage.
  apply image_trace_bind; [apply quiet_loadPPM|].
  intros [[h_rgb width] height]. lazy zeta.
  repeat (apply image_trace_bind;
          [first [apply quiet_check; first [apply quiet_ret | apply quiet_defined]
                 | apply quiet_defined]
          | intros ?]).
  apply image_trace_save.
Qed.

Lemma image_fails_error c w f :
  image_fails c w f → is_error (processImage c w f).2.
Proof.
  intros [Hnone | [(s & Hs & Hmagic) | Herr]]; [| |done].
  - unfold processImage, loadPPM. by rewrite Hnone.
  - unfold processImage, loadPPM. rewrite Hs.
    destruct (read_word s) as [magic rest]. simpl in Hmagic.
    by case_decide.
Qed.

Lemma for_each_done (body : string → M unit) l :
  Forall (λ g, (body g).2 = Ret tt) l →
  for_each l body = (concat ((λ g, (body g).1) <$> l), Ret tt).
Proof.
  induction 1 as [|g l Hg _ IH]; [done|].
  simpl. rewrite IH. destruct (body g) as [tr r]. simpl in *. by subst r.
Qed.

Lemma for_each_stops (body : string → M unit) pre f post :
  Forall (λ g, (body g).2 = Ret tt) pre →
  is_error (body f).2 →
  for_each (pre ++ f :: post) body
  = (concat ((λ g, (body g).1) <$> pre) ++ (body f).1, (body f).2).
Proof.
  intros Hpre Hf. induction Hpre as [|g l Hg _ IH].
  - simpl. by destruct (body f) as [tr [[]| | |]].
  - simpl. rewrite IH. destruct (body g) as [tr r]. simpl in *. subst r.
    by rewrite (assoc_L (++)).
Qed.

Lemma traces_done c w l :
  Forall (image_done c w) l →
  stderr_lines (concat ((λ g, (processImage c w g).1) <$> l)) = []
  ∧ written_files (concat ((λ g, (processImage c w g).1) <$> l))
    = outputFilename <$> l.
Proof.
  unfold stderr_lines, written_files.
  induction 1 as [|g l Hg _ [IH1 IH2]]; [done|].
  rewrite fmap_cons. cbn [concat]. rewrite !omap_app, IH1, IH2.
  pose proof (processImage_trace c w g) as Hshape.
  unfold image_done in Hg. destruct (processImage c w g) as [tr r].
  simpl in *. subst r. by destruct Hshape as [content ->].
Qed.

(** C9. Let [pre] be the input files processed to the end and [rest] the
    others, the first of which, if there is one, fails (it cannot be
    opened, or its magic is not P6, or its processing ends in another
    error). Then [main] writes the outputs of [pre] and no other; when
    [rest] is empty it exits with success and nothing on the error stream,
    and otherwise it exits with the failure status and exactly one
    diagnostic. *)
Theorem main_aborts_on_first_error
    (c : fp_contract) (w : world) (argv0 : string) (pre rest : list string) :
  inputFiles = pre ++ rest →
  Forall (image_done c w) pre →
  (∀ f, head rest = Some f → image_fails c w f) →
  (main c w argv0).2
    = Exit (match rest with [] => EXIT_SUCCESS | _ :: _ => EXIT_FAILURE end)
  ∧ written_files (main c w argv0).1 = outputFilename <$> pre
  ∧ length (stderr_lines (main c w argv0).1)
    = match rest with [] => 0%nat | _ :: _ => 1%nat end.
Proof.
  intros Hsplit Hpre Hrest. unfold main. rewrite Hsplit.
  destruct (traces_done c w pre Hpre) as [Herr Hwr].
  destruct rest as [|f post].
  - rewrite (right_id_L [] (++)).
    rewrite (for_each_done (processImage c w) pre Hpre). simpl.
    unfold stderr_lines, written_files in *.
    rewrite !(right_id_L [] (++)), Herr, Hwr. by split_and!.
  - pose proof (image_fails_error c w f (Hrest f eq_refl)) as Hf.
    rewrite (for_each_stops (processImage c w) pre f post Hpre Hf).
    pose proof (processImage_trace c w f) as Hshape.
    destruct (processImage c w f) as [tr [[]| what | s |]]; simpl in *;
      try done; unfold stderr_lines, written_files in *.
    + subst tr. rewrite !(right_id_L [] (++)), !omap_app, Herr, Hwr.
      cbn [omap list_omap]. rewrite (right_id_L [] (++)). by split_and!.
    + destruct Hshape as [-> [d ->]].
      rewrite !omap_app, Herr, Hwr. cbn [omap list_omap].
      rewrite (right_id_L [] (++)). by split_and!.
Qed.

Lemma main_aborts_on_first_error_witness :
  (main fp_strict world_without_img3 "imageCropper").2
    = Exit (match ["img3.ppm"; "img4.ppm"; "img5.ppm"; "img6.ppm";
                   "img7.ppm"; "img8.ppm"; "img9.ppm"; "img10.ppm"]%string
            with [] => EXIT_SUCCESS | _ :: _ => EXIT_FAILURE end)
  ∧ written_files (main fp_strict world_without_img3 "imageCropper").1
    = outputFilename <$> ["img1.ppm"; "img2.ppm"]%string
  ∧ length (stderr_lines (main fp_strict world_without_img3 "imageCropper").1)
    = match ["img3.ppm"; "img4.ppm"; "img5.ppm"; "img6.ppm";
             "img7.ppm"; "img8.ppm"; "img9.ppm"; "img10.ppm"]%string
      with [] => 0%nat | _ :: _ => 1%nat end.
Proof.
  apply (main_aborts_on_first_error fp_strict world_without_img3
           "imageCropper" ["img1.ppm"; "img2.ppm"]%string).
  - reflexivity.
  - repeat constructor.
  - intros f [= <-]. left. reflexivity.
Defined.

(** ** ToneAdjuster on whole buffers *)

(** Launched over the grid of a [gW] by [gH] image, the tone kernel
    replaces every cell of a [W] by [H] buffer inside that grid by its
    adjusted value. *)
Lemma adjustKernel_pixels (img : buffer) (gW gH W H : Z) :
  fits_int gW gH → 0 ≤ W ≤ gW → 0 ≤ H ≤ gH →
  length img = Z.to_nat (W * H) →
  launch (adjustShadowsHighlightsKernel W H) (gridSize gW gH) blockSize img
  = Some (adjust_pixel <$> img).
Proof.
  intros Hfit HW HH Himg.
  pose proof Hfit as (Hg1 & Hg2 & Hg3 & Hg4 & Hg5).
  set (sel := λ t : thread,
    if (thread_x t <? W) && (thread_y t <? H)
    then Some (Z.to_nat (thread_y t * W + thread_x t)) else None).
  set (val := λ (_ : thread) (old : cell), adjust_pixel old).
  assert (Hguard : ∀ t i, t ∈ launch_threads (gridSize gW gH) blockSize →
            sel t = Some i →
            0 ≤ thread_x t < W ∧ 0 ≤ thread_y t < H
            ∧ i = Z.to_nat (thread_y t * W + thread_x t)).
  { intros t i Hin. unfold sel.
    destruct (thread_coords _ _ _ Hfit Hin)
      as (bx & by_ & tx & ty & _ & ? & ? & ? & ? & Hx & Hy & _).
    destruct (thread_x t <? W) eqn:Ex; [|done].
    destruct (thread_y t <? H) eqn:Ey; [|done].
    intros [= <-]. apply Z.ltb_lt in Ex, Ey. lia. }
  destruct (run_threads_pointwise (adjustShadowsHighlightsKernel W H)
    sel val (launch_threads (gridSize gW gH) blockSize) img)
    as (img' & Hrun & Hlen & Hsel & _).
  - apply NoDup_launch_threads.
  - intros t1 t2 i Ht1 Ht2 S1 S2.
    destruct (Hguard _ _ Ht1 S1) as (? & ? & ->).
    destruct (Hguard _ _ Ht2 S2) as (? & ? & Heq).
    apply Z2Nat.inj in Heq; [|lia..].
    destruct (row_major_inj W (thread_x t1) (thread_y t1)
                (thread_x t2) (thread_y t2)); [lia..|].
    by eapply thread_coords_inj.
  - intros t i Hin S. destruct (Hguard _ _ Hin S) as (? & ? & ->).
    rewrite Himg.
    pose proof (row_major_lt W H (thread_x t) (thread_y t)). lia.
  - intros t m1 Hin Hm1. unfold adjustShadowsHighlightsKernel.
    destruct (sel t) as [i|] eqn:S.
    + destruct (Hguard _ _ Hin S) as (Hx & Hy & ->).
      unfold sel in S. destruct (_ && _); [|done]. clear S.
      pose proof (row_major_lt W H (thread_x t) (thread_y t) Hx Hy).
      assert (W * H ≤ gW * gH) by nia.
      unfold Int.INT_MAX in *.
      rewrite int_mul_small by (unfold Int.INT_MAX; nia).
      rewrite int_add_small by (unfold Int.INT_MAX; nia).
      unfold load. rewrite (proj2 (Z.leb_le _ _)) by lia.
      destruct (lookup_lt_is_Some_2 m1
        (Z.to_nat (thread_y t * W + thread_x t))) as [old Hold].
      { rewrite Hm1, Himg. lia. }
      rewrite Hold. simpl. unfold store.
      rewrite (proj2 (Z.leb_le _ _)) by lia.
      rewrite (proj2 (Z.ltb_lt _ _)) by (rewrite Hm1, Himg; lia). done.
    + unfold sel in S. by destruct (_ && _).
  - unfold launch. rewrite Hrun. f_equal. apply list_eq. intros i.
    rewrite list_lookup_fmap.
    destruct (decide (i < length img)%nat) as [Hi|Hi].
    + set (x := Z.of_nat i mod W). set (y := Z.of_nat i / W).
      assert (0 < W) by nia.
      assert (Hx : 0 ≤ x < W) by (apply Z.mod_pos_bound; lia).
      assert (Hy : 0 ≤ y < H).
      { split; [apply Z.div_pos; lia|].
        apply Z.div_lt_upper_bound; [lia|]. lia. }
      assert (Hi' : i = Z.to_nat (y * W + x)).
      { pose proof (Z.div_mod (Z.of_nat i) W). unfold x, y. lia. }
      destruct (thread_cover gW gH x y Hfit) as (t & Hin & Htx & Hty);
        [lia..|].
      rewrite Hi'. apply (Hsel t); [done|].
      unfold sel. rewrite Htx, Hty.
      by rewrite (proj2 (Z.ltb_lt x W)), (proj2 (Z.ltb_lt y H)) by lia.
    + rewrite !lookup_ge_None_2; [done|lia..].
Qed.

(** ** End-to-end scenarios *)

(** C7. For the input file holding a 3 wide, 5 tall image whose bytes are
    all 100, the loop body of [main] writes a 3 by 3 single-channel image
    whose nine bytes are 110, under every contraction of the luminance
    expression. Stage by stage: the gray image is fifteen times 100; the
    window of 3 by 3 pixels at offset 1 on the height axis holds nine times
    100, and so does the window [main] launches; the tone adjustment takes
    100 to 110. *)
Theorem pipeline_3x5_uniform_100 (c : fp_contract) :
  processImage c (uniform_world 3 5 "d"%char) "img1.ppm"
  = ([WriteFile "processed_images/img1_cropped_adjusted.pgm"
        (PgmFile ("P5" +:+ nl +:+ "3 3" +:+ nl +:+ "255" +:+ nl)
                 (replicate 9 (Def 110)));
      Stdout ("Saved image: processed_images/img1_cropped_adjusted.pgm"
                +:+ nl)],
     Ret tt)
  ∧ Z.of_N (N_of_ascii "d"%char) = 100
  ∧ launch (rgbToGrayKernel c (replicate 45 (Def 100)) 3 5)
      (gridSize 3 5) blockSize (cudaMalloc 15)
    = Some (replicate 15 (Def 100))
  ∧ launch (cropKernel (replicate 15 (Def 100)) 3 5 3 3 0 1)
      (gridSize 3 5) blockSize (cudaMalloc 9)
    = Some (replicate 9 (Def 100))
  ∧ launch (cropKernel (replicate 15 (Def 100)) 3 5
              (dstWidth (main_crop_args 3 5)) (dstHeight (main_crop_args 3 5))
              (offsetX (main_crop_args 3 5)) (offsetY (main_crop_args 3 5)))
      (gridSize 3 5) blockSize (cudaMalloc 9)
    = Some (replicate 9 (Def 100))
  ∧ launch (adjustShadowsHighlightsKernel 3 3) (gridSize 3 5) blockSize
      (replicate 9 (Def 100))
    = Some (replicate 9 (Def 110)).
Proof.
  split_and!; [|reflexivity| |vm_compute; reflexivity..].
  - destruct c as [[ | | ] [ | ]]; vm_compute; reflexivity.
  - destruct c as [[ | | ] [ | ]]; vm_compute; reflexivity.
Qed.

(** The other scenario of section 8, a 4 by 2 image that is all white:
    the gray value 255 takes the highlight branch, where nothing keeps the
    product below 256, and the four bytes written have no defined value. *)
Lemma pipeline_4x2_white (c : fp_contract) :
  processImage c (uniform_world 4 2 "255"%char) "img1.ppm"
  = ([WriteFile "processed_images/img1_cropped_adjusted.pgm"
        (PgmFile ("P5" +:+ nl +:+ "2 2" +:+ nl +:+ "255" +:+ nl)
                 (replicate 4 Indet));
      Stdout ("Saved image: processed_images/img1_cropped_adjusted.pgm"
                +:+ nl)],
     Ret tt).
Proof. destruct c as [[ | | ] [ | ]]; vm_compute; reflexivity. Qed.

(** A run in which every image is processed. *)
Lemma main_all_images_done :
  (main fp_strict (uniform_world 2 1 "d"%char) "imageCropper").2
    = Exit EXIT_SUCCESS
  ∧ written_files (main fp_strict (uniform_world 2 1 "d"%char) "imageCropper").1
    = outputFilename <$> inputFiles
  ∧ stderr_lines (main fp_strict (uniform_world 2 1 "d"%char) "imageCropper").1
    = [].
Proof. split_and!; vm_compute; reflexivity. Qed.

(** ** The whole pipeline on one image *)

Lemma bind_ret {A B} (a : A) (k : A → M B) : ([], Ret a) ≫= k = k a.
Proof. simpl. by destruct (k a). Qed.

Lemma defined_Some {A} (a : A) : defined (Some a) = ([], Ret a).
Proof. done. Qed.

Lemma check_ok {A} w f n (r : M A) :
  cuda_fails w f n = None → checkCudaErrors w f n r = r.
Proof. intros Hok. unfold checkCudaErrors. by rewrite Hok. Qed.

Lemma cudaMemcpy_full (dst src : buffer) n :
  length src = Z.to_nat n → length dst = Z.to_nat n →
  cudaMemcpy dst src n = Some src.
Proof.
  intros Hsrc Hdst. unfold cudaMemcpy.
  rewrite decide_True by lia.
  rewrite take_ge, drop_ge by lia. by rewrite (right_id_L [] (++)).
Qed.

Lemma length_new_uchar n : length (new_uchar n) = Z.to_nat n.
Proof. apply length_replicate. Qed.

Lemma length_read_bytes n s : length (read_bytes n s) = n.
Proof. revert s. induction n as [|n IH]; intros [|a s]; simpl; auto. Qed.

(** What [loadPPM] hands back when it returns. *)
Lemma loadPPM_Ret w f tr h_rgb W H :
  loadPPM w f = (tr, Ret (h_rgb, W, H)) →
  tr = [] ∧ 0 ≤ W * H * 3 ≤ Int.INT_MAX
  ∧ length h_rgb = Z.to_nat (W * H * 3).
Proof.
  unfold loadPPM. destruct (file_contents w f) as [s|]; [|done].
  destruct (read_word s) as [magic rest]. case_decide; [|done].
  destruct (read_int rest) as [[width r1]|] eqn:E1; [|done].
  rewrite defined_Some, bind_ret.
  destruct (read_int r1) as [[height r2]|] eqn:E2; [|done].
  rewrite defined_Some, bind_ret.
  destruct (read_int r2) as [[maxVal r3]|] eqn:E3; [|done].
  rewrite defined_Some, bind_ret.
  destruct ((0 <=? width * height * 3)
            && (width * height * 3 <=? Int.INT_MAX)) eqn:E; [|done].
  intros [= <- <- <- <-].
  apply andb_true_iff in E as [E0%Z.leb_le E%Z.leb_le].
  split_and!; [done..|]. apply length_read_bytes.
Qed.

(** One step through the loop body when nothing fails. *)
Ltac pipeline_steps :=
  repeat first
    [ rewrite check_ok by done
    | rewrite defined_Some
    | rewrite bind_ret
    | progress change (mret ?a) with (([], Ret a) : M _) ].

(** For an image that loads, with no failing CUDA call and a writable
    output path, the loop body writes the square image of side
    [min W H] whose pixel (x, y) is the adjusted luminance of the source
    pixel at linear index [y * W + x + offset]: the offset
    [(max W H - min W H) / 2] is always added along the row. *)
Lemma processImage_spec c w f h_rgb W H :
  loadPPM w f = ([], Ret (h_rgb, W, H)) →
  0 < W → 0 < H →
  (∀ n, cuda_fails w f n = None) →
  can_create w (outputFilename f) = true →
  let side := Z.min W H in
  let offset := (Z.max W H - Z.min W H) / 2 in
  ∃ data,
    processImage c w f
    = ([WriteFile (outputFilename f)
          (PgmFile ("P5" +:+ nl +:+ pretty side +:+ " " +:+ pretty side
                      +:+ nl +:+ "255" +:+ nl) data);
        Stdout ("Saved image: " +:+ outputFilename f +:+ nl)],
       Ret tt)
    ∧ length data = Z.to_nat (side * side)
    ∧ ∀ x y, 0 ≤ x < side → 0 ≤ y < side →
        ∃ r g b,
          channel h_rgb W (x + offset) y 0 = Some r
          ∧ channel h_rgb W (x + offset) y 1 = Some g
          ∧ channel h_rgb W (x + offset) y 2 = Some b
          ∧ pixel data side x y
            = Some (adjust_pixel (rgbToGray_pixel c r g b)).
Proof.
  intros Hload HW HH Hcuda Hcreate side offset.
  destruct (loadPPM_Ret _ _ _ _ _ _ Hload) as (_ & [_ H3] & Hrgb).
  pose proof (fits_int_rgb W H HW HH H3) as Hfit.
  pose proof Hfit as (_ & _ & HW' & HH' & HWH).
  assert (Hside : 0 < side ∧ side ≤ W ∧ side ≤ H) by (unfold side; lia).
  assert (Hss : side * side ≤ W * H) by (apply mul_le_mul; lia).
  assert (Hoff : 0 ≤ offset) by (apply Z.div_pos; lia).
  pose proof (Z.mul_nonneg_nonneg side side) as Hss0.
  unfold Int.INT_MAX in *.
  (* the grayscale stage *)
  destruct (rgbToGrayKernel_pixels c h_rgb (cudaMalloc (W * H)) W H)
    as (gray & Hgray & Hgraylen & Hgraypix);
    [done | done | done | done | apply length_new_uchar |].
  (* the crop *)
  destruct (cropKernel_launch gray (cudaMalloc (side * side))
              W H side side offset 0)
    as (dst & Hdst & Hdstlen & Hdstpix);
    [done | done | done | done | lia | lia | | apply length_new_uchar |].
  { intros x y Hx Hy. apply main_crop_index_bounds; done. }
  (* the tone adjustment *)
  pose proof (adjustKernel_pixels dst W H side side Hfit) as Htone.
  specialize (Htone ltac:(lia) ltac:(lia) Hdstlen).
  exists (adjust_pixel <$> dst).
  split; [|split].
  - unfold processImage. rewrite Hload, bind_ret. lazy zeta.
    rewrite main_crop_args_eq by (unfold Int.INT_MAX; lia).
    cbn [dstWidth dstHeight offsetX offsetY].
    change (Z.min W H) with side.
    change ((Z.max W H - side) / 2) with offset.
    rewrite !(int_mul_small W H) by (unfold Int.INT_MAX; lia).
    rewrite !(int_mul_small (W * H) 3) by (unfold Int.INT_MAX; lia).
    rewrite !(int_mul_small side side) by (unfold Int.INT_MAX; lia).
    pipeline_steps.
    rewrite cudaMemcpy_full by (done || apply length_new_uchar).
    pipeline_steps. rewrite Hgray. pipeline_steps.
    rewrite (cudaMemcpy_full _ gray) by (done || apply length_new_uchar).
    pipeline_steps.
    rewrite (cudaMemcpy_full gray gray) by done.
    pipeline_steps. rewrite Hdst. pipeline_steps.
    rewrite Htone. pipeline_steps.
    rewrite cudaMemcpy_full
      by (rewrite ?length_fmap; done || apply length_new_uchar).
    pipeline_steps.
    unfold savePGM. rewrite Hcreate.
    rewrite !(int_mul_small side side) by (unfold Int.INT_MAX; lia).
    rewrite decide_True by (rewrite length_fmap; lia).
    rewrite take_ge by (rewrite length_fmap; lia). done.
  - by rewrite length_fmap.
  - intros x y Hx Hy.
    destruct (Hdstpix x y Hx Hy) as [_ Hsrc]. unfold pixel in Hsrc.
    assert (Hidx : 0 ≤ (y + 0) * W + (x + offset) < W * H)
      by (by apply main_crop_index_bounds).
    assert (Hrow : 0 ≤ x + offset ∧ 0 ≤ y) by lia.
    (* the gray cell read by the crop, as linear index *)
    set (i := (y + 0) * W + (x + offset)) in *.
    set (gx := i mod W). set (gy := i / W).
    assert (Hgx : 0 ≤ gx < W) by (apply Z.mod_pos_bound; lia).
    assert (Hgy : 0 ≤ gy < H).
    { split; [apply Z.div_pos; lia|].
      apply Z.div_lt_upper_bound; lia. }
    assert (Hi : gy * W + gx = i).
    { pose proof (Z.div_mod i W). unfold gx, gy. lia. }
    destruct (Hgraypix gx gy Hgx Hgy) as (r & g & b & Hr & Hg & Hb & Hp).
    exists r, g, b. unfold channel, pixel in *.
    rewrite Hi in Hr, Hg, Hb, Hp.
    replace (y * W + (x + offset)) with i by (unfold i; lia).
    split_and!; [done..|].
    rewrite list_lookup_fmap, Hsrc, Hp. done.
Qed.

(** An image that loads with positive sizes is processed to the end when
    no CUDA call fails and the output path can be written. *)
Lemma image_done_of_load c w f h_rgb W H :
  loadPPM w f = ([], Ret (h_rgb, W, H)) →
  0 < W → 0 < H →
  (∀ n, cuda_fails w f n = None) →
  can_create w (outputFilename f) = true →
  image_done c w f.
Proof.
  intros Hload HW HH Hcuda Hcreate.
  destruct (processImage_spec c w f h_rgb W H Hload HW HH Hcuda Hcreate)
    as (data & Hrun & _).
  unfold image_done. by rewrite Hrun.
Qed.

(** * Further properties *)

(** ** The tone map as a function on bytes *)

Lemma cell_eqb_eq a b : cell_eqb a b = true → a = b.
Proof.
  destruct a as [v|], b as [w|]; simpl; try done.
  by intros ->%Z.eqb_eq.
Qed.

Lemma adjust_table_closed :
  forallb (λ v, cell_eqb (adjust_pixel (Def v)) (adjust_closed v))
    (seqZ 0 256) = true.
Proof. vm_compute. reflexivity. Qed.

(** X1. The tone adjustment of a byte in integer terms: [11 v / 10] rounded
    down for [v <= 128]; [105 v / 100] rounded down for [129 <= v <= 243],
    less one at 180, 200, 220 and 240; no defined byte for [v >= 244]. *)
Theorem adjust_pixel_closed_form (v : Z) :
  0 ≤ v ≤ 255 → adjust_pixel (Def v) = adjust_closed v.
Proof.
  intros Hv. apply cell_eqb_eq.
  apply (forallb_seqZ _ 0 256 v adjust_table_closed). lia.
Qed.

Lemma adjust_pixel_closed_form_witness :
  adjust_pixel (Def 200) = adjust_closed 200.
Proof. apply (adjust_pixel_closed_form 200). lia. Defined.

(** X2. The bytes 0 to 9 are left as they are. For every byte from 10 to
    232 two successive adjustments both give a byte, each strictly
    brighter than the one before: the adjustment is not idempotent there.
    A byte from 233 to 243 is stored brighter once, as a byte on which a
    second adjustment has no defined result. *)
Theorem adjust_fixed_points (v : Z) :
  0 ≤ v ≤ 243 →
  (v ≤ 9 → adjust_pixel (Def v) = Def v)
  ∧ (10 ≤ v ≤ 232 →
       ∃ w w', adjust_pixel (Def v) = Def w
               ∧ adjust_pixel (Def w) = Def w' ∧ v < w < w')
  ∧ (233 ≤ v →
       ∃ w, adjust_pixel (Def v) = Def w ∧ v < w
            ∧ adjust_pixel (Def w) = Indet).
Proof.
  intros Hv. split_and!.
  - intros Hle.
    assert (Hall : forallb (λ v, cell_eqb (adjust_pixel (Def v)) (Def v))
                     (seqZ 0 10) = true) by (vm_compute; reflexivity).
    apply cell_eqb_eq, (forallb_seqZ _ 0 10 v Hall). lia.
  - intros Hge.
    assert (Hall : forallb adjust_moves (seqZ 10 223) = true)
      by (vm_compute; reflexivity).
    pose proof (forallb_seqZ _ 10 223 v Hall ltac:(lia)) as Hm.
    unfold adjust_moves in Hm.
    destruct (adjust_pixel (Def v)) as [w|]; [|done].
    destruct (adjust_pixel (Def w)) as [w'|] eqn:Hw'; [|done].
    apply andb_true_iff in Hm as [Hlt%Z.ltb_lt Hlt'%Z.ltb_lt].
    exists w, w'. split_and!; [reflexivity|exact Hw'|exact Hlt|exact Hlt'].
  - intros Hge.
    assert (Hall : forallb adjust_leaves (seqZ 233 11) = true)
      by (vm_compute; reflexivity).
    pose proof (forallb_seqZ _ 233 11 v Hall ltac:(lia)) as Hm.
    unfold adjust_leaves in Hm.
    destruct (adjust_pixel (Def v)) as [w|]; [|done].
    apply andb_true_iff in Hm as [Hlt%Z.ltb_lt Hind].
    exists w. split_and!; [reflexivity|exact Hlt|].
    by destruct (adjust_pixel (Def w)).
Qed.

Lemma adjust_fixed_points_witness :
  (100 ≤ 9 → adjust_pixel (Def 100) = Def 100)
  ∧ (10 ≤ 100 ≤ 232 →
       ∃ w w', adjust_pixel (Def 100) = Def w
               ∧ adjust_pixel (Def w) = Def w' ∧ 100 < w < w')
  ∧ (233 ≤ 100 →
       ∃ w, adjust_pixel (Def 100) = Def w ∧ 100 < w
            ∧ adjust_pixel (Def w) = Indet).
Proof. apply (adjust_fixed_points 100). lia. Defined.

Lemma adjust_closed_mono_table :
  forallb (λ v1, forallb (λ v2,
      match adjust_closed v1, adjust_closed v2 with
      | Def w1, Def w2 =>
          (v2 <? v1) || ((v1 <=? 128) && (128 <? v2)) || (w1 <=? w2)
      | _, _ => false
      end) (seqZ 0 244)) (seqZ 0 244) = true.
Proof. vm_compute. reflexivity. Qed.

(** X3. Within each branch the tone map keeps the order of pixels: for
    [v1 <= v2] both at most 128, or both in 129..243, the byte stored for
    [v1] is at most the byte stored for [v2]. *)
Theorem adjust_monotone_in_branch (v1 v2 : Z) :
  0 ≤ v1 ≤ v2 → v2 ≤ 243 → (v2 ≤ 128 ∨ 129 ≤ v1) →
  ∃ w1 w2, adjust_pixel (Def v1) = Def w1 ∧ adjust_pixel (Def v2) = Def w2
           ∧ w1 ≤ w2.
Proof.
  intros H12 H2 Hbranch.
  pose proof (forallb_seqZ _ 0 244 v1 adjust_closed_mono_table ltac:(lia))
    as Hrow. cbv beta in Hrow.
  pose proof (forallb_seqZ _ 0 244 v2 Hrow ltac:(lia)) as Hcell.
  cbv beta in Hcell.
  pose proof (cell_eqb_eq _ _
    (forallb_seqZ _ 0 256 v1 adjust_table_closed ltac:(lia))) as E1.
  pose proof (cell_eqb_eq _ _
    (forallb_seqZ _ 0 256 v2 adjust_table_closed ltac:(lia))) as E2.
  cbv beta in E1, E2. rewrite E1, E2 in *.
  destruct (adjust_closed v1) as [w1|]; [|done].
  destruct (adjust_closed v2) as [w2|]; [|done].
  exists w1, w2. split_and!; [done..|].
  apply orb_true_iff in Hcell as [Hcell|Hcell]; [|by apply Z.leb_le].
  apply orb_true_iff in Hcell as [Hcell%Z.ltb_lt|Hcell]; [lia|].
  apply andb_true_iff in Hcell as [?%Z.leb_le ?%Z.ltb_lt]. lia.
Qed.

Lemma adjust_monotone_in_branch_witness :
  ∃ w1 w2, adjust_pixel (Def 130) = Def w1 ∧ adjust_pixel (Def 200) = Def w2
           ∧ w1 ≤ w2.
Proof. apply (adjust_monotone_in_branch 130 200); lia. Defined.

(** X4. Across the boundary the order is inverted: the five pixels 129 to
    133, all brighter than 128, are stored darker than 128 is (140). *)
Theorem adjust_inverts_at_boundary (v : Z) :
  129 ≤ v ≤ 133 →
  adjust_pixel (Def 128) = Def 140
  ∧ ∃ w, adjust_pixel (Def v) = Def w ∧ 128 < v ∧ w < 140.
Proof.
  intros Hv. split; [vm_compute; reflexivity|].
  pose proof (cell_eqb_eq _ _
    (forallb_seqZ _ 0 256 v adjust_table_closed ltac:(lia))) as E.
  cbv beta in E. rewrite E. unfold adjust_closed.
  rewrite (proj2 (Z.leb_gt v 128)), (proj2 (Z.leb_le v 243)) by lia.
  rewrite (proj2 (Z.leb_gt 180 v)) by lia. simpl.
  eexists. split; [done|]. split; [lia|].
  apply Z.div_lt_upper_bound; lia.
Qed.

Lemma adjust_inverts_at_boundary_witness :
  adjust_pixel (Def 128) = Def 140
  ∧ ∃ w, adjust_pixel (Def 129) = Def w ∧ 128 < 129 ∧ w < 140.
Proof. apply (adjust_inverts_at_boundary 129). lia. Defined.

(** ** The kernels under any schedule *)

(** The threads of a launch over the grid of a [gW] by [gH] image that
    pass the guard of a [W] by [H] buffer write distinct cells inside it. *)
Lemma pixel_sel_guard gW gH W H t i :
  fits_int gW gH →
  t ∈ launch_threads (gridSize gW gH) blockSize →
  pixel_sel W H t = Some i →
  0 ≤ thread_x t < W ∧ 0 ≤ thread_y t < H
  ∧ i = Z.to_nat (thread_y t * W + thread_x t).
Proof.
  intros Hfit Hin. unfold pixel_sel.
  destruct (thread_coords _ _ _ Hfit Hin)
    as (bx & by_ & tx & ty & _ & ? & ? & ? & ? & Hx & Hy & _).
  destruct (thread_x t <? W) eqn:Ex; [|done].
  destruct (thread_y t <? H) eqn:Ey; [|done].
  intros [= <-]. apply Z.ltb_lt in Ex, Ey. lia.
Qed.

Lemma pixel_sel_inj gW gH W H t1 t2 i :
  fits_int gW gH →
  t1 ∈ launch_threads (gridSize gW gH) blockSize →
  t2 ∈ launch_threads (gridSize gW gH) blockSize →
  pixel_sel W H t1 = Some i → pixel_sel W H t2 = Some i → t1 = t2.
Proof.
  intros Hfit Ht1 Ht2 S1 S2.
  destruct (pixel_sel_guard _ _ _ _ _ _ Hfit Ht1 S1) as (? & ? & ->).
  destruct (pixel_sel_guard _ _ _ _ _ _ Hfit Ht2 S2) as (? & ? & Heq).
  apply Z2Nat.inj in Heq; [|nia..].
  destruct (row_major_inj W (thread_x t1) (thread_y t1)
              (thread_x t2) (thread_y t2)); [lia..|].
  by eapply thread_coords_inj.
Qed.

Lemma pixel_sel_lt gW gH W H t i :
  fits_int gW gH →
  t ∈ launch_threads (gridSize gW gH) blockSize →
  pixel_sel W H t = Some i → (i < Z.to_nat (W * H))%nat.
Proof.
  intros Hfit Hin S.
  destruct (pixel_sel_guard _ _ _ _ _ _ Hfit Hin S) as (? & ? & ->).
  pose proof (row_major_lt W H (thread_x t) (thread_y t)). lia.
Qed.

(** One thread of the tone kernel, on a buffer of the right length. *)
Lemma adjustKernel_thread gW gH W H t (m : buffer) :
  fits_int gW gH → 0 ≤ W ≤ gW → 0 ≤ H ≤ gH →
  t ∈ launch_threads (gridSize gW gH) blockSize →
  length m = Z.to_nat (W * H) →
  adjustShadowsHighlightsKernel W H t m
  = match pixel_sel W H t with
    | None => Some m
    | Some i => (λ old, <[i := adjust_pixel old]> m) <$> m !! i
    end.
Proof.
  intros Hfit HW HH Hin Hm. unfold adjustShadowsHighlightsKernel.
  destruct (pixel_sel W H t) as [i|] eqn:S.
  - destruct (pixel_sel_guard _ _ _ _ _ _ Hfit Hin S) as (Hx & Hy & ->).
    unfold pixel_sel in S. destruct (_ && _); [|done]. clear S.
    pose proof (row_major_lt W H (thread_x t) (thread_y t) Hx Hy).
    pose proof (mul_le_mul W H gW gH HW HH).
    pose proof (Z.mul_nonneg_nonneg (thread_y t) W).
    destruct Hfit as (_ & _ & _ & _ & HWH). unfold Int.INT_MAX in *.
    rewrite int_mul_small by (unfold Int.INT_MAX; lia).
    rewrite int_add_small by (unfold Int.INT_MAX; lia).
    unfold load. rewrite (proj2 (Z.leb_le _ _)) by lia.
    destruct (lookup_lt_is_Some_2 m
      (Z.to_nat (thread_y t * W + thread_x t))) as [old Hold]; [lia|].
    rewrite Hold. simpl. unfold store.
    rewrite (proj2 (Z.leb_le _ _)) by lia.
    by rewrite (proj2 (Z.ltb_lt _ _)) by lia.
  - unfold pixel_sel in S. by destruct (_ && _).
Qed.

(** X5. Whatever the order in which the threads of the launch run, the tone
    kernel replaces every cell of a [W] by [H] buffer by its adjusted value,
    once, and leaves the length as it is. *)
Theorem adjustKernel_any_schedule
    (img : buffer) (gW gH W H : Z) (ts : list thread) :
  fits_int gW gH → 0 ≤ W ≤ gW → 0 ≤ H ≤ gH →
  length img = Z.to_nat (W * H) →
  ts ≡ₚ launch_threads (gridSize gW gH) blockSize →
  run_threads (adjustShadowsHighlightsKernel W H) ts img
  = Some (adjust_pixel <$> img).
Proof.
  intros Hfit HW HH Himg Hperm.
  rewrite (run_threads_schedule (adjustShadowsHighlightsKernel W H)
             (pixel_sel W H) (λ _, adjust_pixel)
             (launch_threads (gridSize gW gH) blockSize) ts img).
  - by apply adjustKernel_pixels.
  - done.
  - apply NoDup_launch_threads.
  - intros t1 t2 i. by apply pixel_sel_inj.
  - intros t i Hin S. rewrite Himg. by eapply pixel_sel_lt.
  - intros t m1 Hin Hm1. apply (adjustKernel_thread gW gH); try done.
    by rewrite Hm1.
Qed.

Lemma adjustKernel_any_schedule_witness :
  run_threads (adjustShadowsHighlightsKernel 2 1)
    (reverse (launch_threads (gridSize 2 1) blockSize)) [Def 128; Def 129]
  = Some (adjust_pixel <$> [Def 128; Def 129]).
Proof.
  apply (adjustKernel_any_schedule [Def 128; Def 129] 2 1 2 1).
  - repeat split; vm_compute; congruence.
  - lia.
  - lia.
  - reflexivity.
  - apply reverse_Permutation.
Defined.

(** One thread of the grayscale kernel, on buffers of the right lengths. *)
Lemma rgbToGrayKernel_thread c (rgb : buffer) W H t (m : buffer) :
  0 < W → 0 < H → W * H * 3 ≤ Int.INT_MAX →
  length rgb = Z.to_nat (W * H * 3) →
  t ∈ launch_threads (gridSize W H) blockSize →
  length m = Z.to_nat (W * H) →
  rgbToGrayKernel c rgb W H t m
  = match pixel_sel W H t with
    | None => Some m
    | Some i =>
        (λ _, <[i := rgbToGray_pixel c
                  (default Indet (channel rgb W (thread_x t) (thread_y t) 0))
                  (default Indet (channel rgb W (thread_x t) (thread_y t) 1))
                  (default Indet (channel rgb W (thread_x t) (thread_y t) 2))]>
                m) <$> m !! i
    end.
Proof.
  intros HW HH H3 Hrgb Hin Hm.
  pose proof (fits_int_rgb W H HW HH H3) as Hfit.
  unfold rgbToGrayKernel.
  destruct (pixel_sel W H t) as [i|] eqn:S.
  - destruct (pixel_sel_guard _ _ _ _ _ _ Hfit Hin S) as (Hx & Hy & ->).
    unfold pixel_sel in S. destruct (_ && _); [|done]. clear S.
    pose proof (row_major_lt W H (thread_x t) (thread_y t) Hx Hy).
    pose proof (Z.mul_nonneg_nonneg (thread_y t) W).
    unfold Int.INT_MAX in *.
    rewrite (int_mul_small (thread_y t)) by (unfold Int.INT_MAX; lia).
    rewrite (int_add_small (_ * _)) by (unfold Int.INT_MAX; lia).
    rewrite int_mul_small by (unfold Int.INT_MAX; lia).
    rewrite !int_add_small by (unfold Int.INT_MAX; lia).
    unfold channel.
    destruct (lookup_lt_is_Some_2 rgb
      (Z.to_nat ((thread_y t * W + thread_x t) * 3 + 0))) as [r Hr]; [lia|].
    destruct (lookup_lt_is_Some_2 rgb
      (Z.to_nat ((thread_y t * W + thread_x t) * 3 + 1))) as [g Hg]; [lia|].
    destruct (lookup_lt_is_Some_2 rgb
      (Z.to_nat ((thread_y t * W + thread_x t) * 3 + 2))) as [b Hb]; [lia|].
    rewrite Hr, Hg, Hb. rewrite Z.add_0_r in Hr.
    unfold load. rewrite !(proj2 (Z.leb_le 0 _)) by lia.
    rewrite Hr, Hg, Hb. simpl. unfold store.
    rewrite (proj2 (Z.leb_le _ _)) by lia.
    rewrite (proj2 (Z.ltb_lt _ _)) by lia. simpl.
    destruct (lookup_lt_is_Some_2 m
      (Z.to_nat (thread_y t * W + thread_x t))) as [old Hold]; [lia|].
    by rewrite Hold.
  - unfold pixel_sel in S. by destruct (_ && _).
Qed.

(** X6. The grayscale kernel gives the same buffer whatever the order in
    which the threads of its launch run. *)
Theorem rgbToGrayKernel_any_schedule
    (c : fp_contract) (rgb gray0 : buffer) (W H : Z) (ts : list thread) :
  0 < W → 0 < H → W * H * 3 ≤ Int.INT_MAX →
  length rgb = Z.to_nat (W * H * 3) →
  length gray0 = Z.to_nat (W * H) →
  ts ≡ₚ launch_threads (gridSize W H) blockSize →
  run_threads (rgbToGrayKernel c rgb W H) ts gray0
  = launch (rgbToGrayKernel c rgb W H) (gridSize W H) blockSize gray0.
Proof.
  intros HW HH H3 Hrgb Hgray Hperm.
  pose proof (fits_int_rgb W H HW HH H3) as Hfit.
  unfold launch.
  eapply (run_threads_schedule (rgbToGrayKernel c rgb W H) (pixel_sel W H)
            (λ t _, rgbToGray_pixel c
               (default Indet (channel rgb W (thread_x t) (thread_y t) 0))
               (default Indet (channel rgb W (thread_x t) (thread_y t) 1))
               (default Indet (channel rgb W (thread_x t) (thread_y t) 2)))).
  - done.
  - apply NoDup_launch_threads.
  - intros t1 t2 i. by apply pixel_sel_inj.
  - intros t i Hin S. rewrite Hgray. by eapply pixel_sel_lt.
  - intros t m1 Hin Hm1. rewrite Hgray in Hm1.
    by apply rgbToGrayKernel_thread.
Qed.

Lemma rgbToGrayKernel_any_schedule_witness :
  run_threads (rgbToGrayKernel fp_strict [Def 150; Def 10; Def 20] 1 1)
    (reverse (launch_threads (gridSize 1 1) blockSize)) [Indet]
  = launch (rgbToGrayKernel fp_strict [Def 150; Def 10; Def 20] 1 1)
      (gridSize 1 1) blockSize [Indet].
Proof.
  apply (rgbToGrayKernel_any_schedule fp_strict
           [Def 150; Def 10; Def 20] [Indet] 1 1);
    [lia | lia | vm_compute; congruence | reflexivity | reflexivity
    | apply reverse_Permutation].
Defined.

(** One thread of the crop kernel, for a window whose reads fall inside the
    source. *)
Lemma cropKernel_thread (src : buffer) srcW srcH w h ox oy t (m : buffer) :
  fits_int srcW srcH →
  length src = Z.to_nat (srcW * srcH) →
  0 ≤ ox → 0 ≤ oy → 0 ≤ w ≤ srcW → 0 ≤ h ≤ srcH →
  (∀ x y, 0 ≤ x < w → 0 ≤ y < h →
     (y + oy) * srcW + (x + ox) < srcW * srcH) →
  t ∈ launch_threads (gridSize srcW srcH) blockSize →
  length m = Z.to_nat (w * h) →
  cropKernel src srcW srcH w h ox oy t m
  = match pixel_sel w h t with
    | None => Some m
    | Some i =>
        (λ _, <[i := default Indet
                  (pixel src srcW (thread_x t + ox) (thread_y t + oy))]> m)
        <$> m !! i
    end.
Proof.
  intros Hfit Hsrc Hox Hoy Hw Hh Hinside Hin Hm.
  pose proof Hfit as (HW & HH & HW' & HH' & HWH).
  unfold cropKernel.
  destruct (pixel_sel w h t) as [i|] eqn:S.
  - destruct (pixel_sel_guard _ _ _ _ _ _ Hfit Hin S) as (Hx & Hy & ->).
    unfold pixel_sel in S. destruct (_ && _); [|done]. clear S.
    pose proof (row_major_lt w h (thread_x t) (thread_y t) Hx Hy).
    pose proof (Hinside (thread_x t) (thread_y t) Hx Hy).
    pose proof (mul_le_mul w h srcW srcH).
    pose proof (mul_bounds (thread_y t + oy) srcW).
    pose proof (Z.mul_nonneg_nonneg (thread_y t) w).
    unfold Int.INT_MAX in *. unfold srcIdx.
    rewrite (int_add_small (thread_y t)) by (unfold Int.INT_MAX; lia).
    rewrite (int_add_small (thread_x t)) by (unfold Int.INT_MAX; lia).
    rewrite !int_mul_small by (unfold Int.INT_MAX; lia).
    rewrite !int_add_small by (unfold Int.INT_MAX; lia).
    unfold load, pixel. rewrite (proj2 (Z.leb_le _ _)) by lia.
    destruct (lookup_lt_is_Some_2 src
      (Z.to_nat ((thread_y t + oy) * srcW + (thread_x t + ox)))) as [v Hv];
      [lia|].
    rewrite Hv. simpl. unfold store.
    rewrite (proj2 (Z.leb_le _ _)) by lia.
    rewrite (proj2 (Z.ltb_lt _ _)) by lia. simpl.
    destruct (lookup_lt_is_Some_2 m
      (Z.to_nat (thread_y t * w + thread_x t))) as [old Hold]; [lia|].
    by rewrite Hold.
  - unfold pixel_sel in S. by destruct (_ && _).
Qed.

(** X7. The crop kernel gives the same buffer whatever the order in which
    the threads of its launch run, for every window whose reads fall inside
    the source. *)
Theorem cropKernel_any_schedule
    (src dst0 : buffer) (srcW srcH w h ox oy : Z) (ts : list thread) :
  fits_int srcW srcH →
  length src = Z.to_nat (srcW * srcH) →
  0 ≤ ox → 0 ≤ oy → 0 ≤ w ≤ srcW → 0 ≤ h ≤ srcH →
  (∀ x y, 0 ≤ x < w → 0 ≤ y < h →
     (y + oy) * srcW + (x + ox) < srcW * srcH) →
  length dst0 = Z.to_nat (w * h) →
  ts ≡ₚ launch_threads (gridSize srcW srcH) blockSize →
  run_threads (cropKernel src srcW srcH w h ox oy) ts dst0
  = launch (cropKernel src srcW srcH w h ox oy)
      (gridSize srcW srcH) blockSize dst0.
Proof.
  intros Hfit Hsrc Hox Hoy Hw Hh Hinside Hdst Hperm.
  unfold launch.
  eapply (run_threads_schedule (cropKernel src srcW srcH w h ox oy)
            (pixel_sel w h)
            (λ t _, default Indet
               (pixel src srcW (thread_x t + ox) (thread_y t + oy)))).
  - done.
  - apply NoDup_launch_threads.
  - intros t1 t2 i. by apply pixel_sel_inj.
  - intros t i Hin S. rewrite Hdst. by eapply pixel_sel_lt.
  - intros t m1 Hin Hm1. rewrite Hdst in Hm1.
    by apply cropKernel_thread.
Qed.

Lemma cropKernel_any_schedule_witness :
  run_threads (cropKernel (Def <$> seqZ 0 15) 3 5 3 3 1 0)
    (reverse (launch_threads (gridSize 3 5) blockSize)) (cudaMalloc 9)
  = launch (cropKernel (Def <$> seqZ 0 15) 3 5 3 3 1 0)
      (gridSize 3 5) blockSize (cudaMalloc 9).
Proof.
  apply (cropKernel_any_schedule (Def <$> seqZ 0 15) (cudaMalloc 9)
           3 5 3 3 1 0).
  - repeat split; vm_compute; congruence.
  - reflexivity.
  - lia.
  - lia.
  - lia.
  - lia.
  - intros x y Hx Hy. nia.
  - reflexivity.
  - apply reverse_Permutation.
Defined.

(** ** The launch grid *)

(** X8. The grid [main] launches for a [W] by [H] image has
    [ceil(W / 16)] by [ceil(H / 16)] blocks, lists no thread twice, and
    holds for every pixel exactly one thread with its coordinates. *)
Theorem launch_grid_covers_once (W H x y : Z) :
  fits_int W H → 0 ≤ x < W → 0 ≤ y < H →
  gridSize W H = Dim3 ((W + 15) / 16) ((H + 15) / 16)
  ∧ NoDup (launch_threads (gridSize W H) blockSize)
  ∧ ∃ t, t ∈ launch_threads (gridSize W H) blockSize
         ∧ thread_x t = x ∧ thread_y t = y
         ∧ ∀ t', t' ∈ launch_threads (gridSize W H) blockSize →
                 thread_x t' = x → thread_y t' = y → t' = t.
Proof.
  intros Hfit Hx Hy. split; [|split].
  - destruct Hfit as (? & ? & ? & ? & _). by apply gridSize_eq.
  - apply NoDup_launch_threads.
  - destruct (thread_cover W H x y Hfit Hx Hy) as (t & Hin & Htx & Hty).
    exists t. split_and!; [done..|].
    intros t' Hin' Hx' Hy'.
    apply (thread_coords_inj W H); [done..|congruence|congruence].
Qed.

Lemma launch_grid_covers_once_witness :
  gridSize 20 3 = Dim3 ((20 + 15) / 16) ((3 + 15) / 16)
  ∧ NoDup (launch_threads (gridSize 20 3) blockSize)
  ∧ ∃ t, t ∈ launch_threads (gridSize 20 3) blockSize
         ∧ thread_x t = 17 ∧ thread_y t = 2
         ∧ ∀ t', t' ∈ launch_threads (gridSize 20 3) blockSize →
                 thread_x t' = 17 → thread_y t' = 2 → t' = t.
Proof.
  apply (launch_grid_covers_once 20 3 17 2).
  - repeat split; vm_compute; congruence.
  - lia.
  - lia.
Defined.

(** ** Reading decimal numbers *)

Lemma append_cons a s t : String a s +:+ t = String a (s +:+ t).
Proof. done. Qed.

Lemma append_nil_l t : "" +:+ t = t.
Proof. done. Qed.

Lemma append_assoc (s t u : string) : (s +:+ t) +:+ u = s +:+ (t +:+ u).
Proof. induction s as [|a s IH]; [done|]. by rewrite !append_cons, IH. Qed.

Lemma pretty_N_char_digit d :
  (d < 10)%N →
  Ascii.is_nat (pretty_N_char d) = Some (N.to_nat d)
  ∧ Ascii.is_space (pretty_N_char d) = false.
Proof.
  intros Hd.
  assert (d = 0 ∨ d = 1 ∨ d = 2 ∨ d = 3 ∨ d = 4 ∨ d = 5 ∨ d = 6 ∨ d = 7
          ∨ d = 8 ∨ d = 9)%N as Hcases by lia.
  repeat (destruct Hcases as [->|Hcases]; [done|]). by subst.
Qed.

Lemma pretty_N_go_app x s r : pretty_N_go x s +:+ r = pretty_N_go x (s +:+ r).
Proof.
  revert s. induction (N.lt_wf_0 x) as [x _ IH]; intros s.
  assert (x = 0 ∨ 0 < x)%N as [->|Hx] by lia.
  - by rewrite !pretty_N_go_0.
  - rewrite (pretty_N_go_step x s), (pretty_N_go_step x (s +:+ r)) by done.
    rewrite IH by (by apply N.div_lt). by rewrite append_cons.
Qed.

(** The digits of [x], read back after an accumulator. *)
Lemma take_digits_pretty_N_go x :
  ∃ k : Z, 0 ≤ k ∧ ∀ acc s,
    take_digits acc (pretty_N_go x s)
    = take_digits (acc * 10 ^ k + Z.of_N x) s.
Proof.
  induction (N.lt_wf_0 x) as [x _ IH].
  assert (x = 0 ∨ 0 < x)%N as [->|Hx] by lia.
  - exists 0. split; [done|]. intros acc s. rewrite pretty_N_go_0.
    f_equal. lia.
  - destruct (IH (x `div` 10)%N) as (k & Hk & IHk); [by apply N.div_lt|].
    exists (k + 1). split; [lia|]. intros acc s.
    rewrite pretty_N_go_step, IHk by done.
    cbn [take_digits].
    destruct (pretty_N_char_digit (x `mod` 10)%N) as [-> _];
      [by apply N.mod_lt|].
    f_equal. rewrite Z.pow_add_r, Z.pow_1_r by lia.
    rewrite N_nat_Z.
    pose proof (N.div_mod x 10 ltac:(done)) as Hdm.
    apply (f_equal Z.of_N) in Hdm.
    rewrite N2Z.inj_add, N2Z.inj_mul in Hdm.
    change (Z.of_N 10) with 10 in Hdm. rewrite Hdm. ring.
Qed.

(** A positive number is printed with a digit in front. *)
Lemma pretty_N_go_head x s :
  (0 < x)%N →
  ∃ d t, (d < 10)%N ∧ pretty_N_go x s = String (pretty_N_char d) t.
Proof.
  revert s. induction (N.lt_wf_0 x) as [x _ IH]; intros s Hx.
  rewrite pretty_N_go_step by done.
  destruct (N.eq_0_gt_0_cases (x `div` 10)) as [->|Hd].
  - rewrite pretty_N_go_0. exists (x `mod` 10)%N, s.
    split; [by apply N.mod_lt|done].
  - apply IH; [by apply N.div_lt|done].
Qed.

Lemma skip_ws_all_space ws s :
  all_space ws = true → skip_ws (ws +:+ s) = skip_ws s.
Proof.
  induction ws as [|a ws IH]; [done|].
  cbn [all_space]. intros [Ha Hws]%andb_true_iff.
  rewrite append_cons. cbn [skip_ws]. rewrite Ha. by apply IH.
Qed.

Lemma take_digits_stop acc s :
  no_digit_head s = true → take_digits acc s = (acc, s).
Proof.
  destruct s as [|a s]; [done|]. cbn. by destruct (Ascii.is_nat a).
Qed.

(** A numeral without a sign, read by [read_int]. *)
Lemma read_int_digit a s d :
  Ascii.is_space a = false → Ascii.is_nat a = Some d →
  read_int (String a s)
  = (let '(v, r) := take_digits 0 (String a s) in
     if v <=? Int.INT_MAX then Some (v, r) else None).
Proof.
  intros Hsp Hnat. unfold read_int. cbn [skip_ws]. rewrite Hsp.
  destruct (decide (a = "-"%char)) as [->|_]; [done|].
  destruct (decide (a = "+"%char)) as [->|_]; [done|].
  unfold read_unsigned. rewrite Hnat.
  by destruct (take_digits 0 (String a s)).
Qed.

(** The decimal text of a number, read by [read_int]. *)
Lemma read_int_pretty n rest :
  0 ≤ n ≤ Int.INT_MAX → no_digit_head rest = true →
  read_int (pretty n +:+ rest) = Some (n, rest).
Proof.
  intros Hn Hrest.
  destruct n as [|p|p]; [| |lia].
  - change (pretty 0) with "0". rewrite append_cons, append_nil_l.
    rewrite (read_int_digit _ _ 0%nat) by done.
    cbn [take_digits Ascii.is_nat]. rewrite take_digits_stop by done.
    done.
  - change (pretty (Z.pos p)) with (pretty_N_go (N.pos p) "").
    rewrite pretty_N_go_app, append_nil_l.
    destruct (pretty_N_go_head (N.pos p) rest) as (d & t & Hd & Hhead);
      [done|].
    destruct (pretty_N_char_digit d Hd) as [Hnat Hspace].
    rewrite Hhead, (read_int_digit _ _ _ Hspace Hnat), <- Hhead.
    destruct (take_digits_pretty_N_go (N.pos p)) as (k & _ & Hk).
    rewrite Hk, take_digits_stop by done.
    cbn [Z.mul Z.add Z.of_N].
    by rewrite (proj2 (Z.leb_le _ _)) by lia.
Qed.

Lemma read_int_skip_ws ws s :
  all_space ws = true → read_int (ws +:+ s) = read_int s.
Proof. intros Hws. unfold read_int. by rewrite skip_ws_all_space. Qed.

(** X9. What [operator<<] prints for an [int] that is not negative,
    [operator>>] reads back, after any white space and up to the first
    character that is not a digit: the sizes [savePGM] writes are the
    sizes [loadPPM] reads. *)
Theorem read_int_after_space (ws rest : string) (n : Z) :
  all_space ws = true → 0 ≤ n ≤ Int.INT_MAX → no_digit_head rest = true →
  read_int (ws +:+ pretty n +:+ rest) = Some (n, rest).
Proof.
  intros Hws Hn Hrest.
  by rewrite read_int_skip_ws, read_int_pretty.
Qed.

Lemma read_int_after_space_witness :
  read_int ((" " +:+ nl) +:+ pretty 640 +:+ (" 480" +:+ nl))
  = Some (640, " 480" +:+ nl).
Proof.
  apply (read_int_after_space (" " +:+ nl) (" 480" +:+ nl) 640);
    [reflexivity | vm_compute; split; congruence | reflexivity].
Defined.

(** ** Loading an image *)

Lemma read_bytes_byte_cells n s : Forall byte_cell (read_bytes n s).
Proof.
  revert s. induction n as [|n IH]; intros s; [constructor|].
  destruct s as [|a s]; cbn [read_bytes]; constructor; try done.
  cbn [byte_cell]. pose proof (N_ascii_bounded a). lia.
Qed.

Lemma read_bytes_spec n s :
  read_bytes n s
  = (cell_of_ascii <$> take n (list_ascii_of_string s))
    ++ replicate (n - String.length s) Indet.
Proof.
  revert s. induction n as [|n IH]; intros s; [done|].
  destruct s as [|a s]; cbn [read_bytes]; rewrite IH.
  - cbn [list_ascii_of_string String.length]. rewrite !take_nil.
    cbn. by rewrite Nat.sub_0_r.
  - reflexivity.
Qed.

(** X10. When [loadPPM] returns, it has left no trace, the count
    [width * height * 3] is a value of [int] that is not negative, the
    buffer has exactly that many cells, and every cell is a byte or, where
    the file was too short, indeterminate. The sizes themselves can be
    negative: the header [-1 -1] gives a buffer of three cells. *)
Theorem loadPPM_returns_whole_buffer
    (w : world) (f : string) (tr : list event) (h_rgb : buffer) (W H : Z) :
  loadPPM w f = (tr, Ret (h_rgb, W, H)) →
  tr = [] ∧ 0 ≤ W * H * 3 ≤ Int.INT_MAX
  ∧ length h_rgb = Z.to_nat (W * H * 3)
  ∧ Forall byte_cell h_rgb.
Proof.
  intros Hload.
  destruct (loadPPM_Ret _ _ _ _ _ _ Hload) as (-> & [? ?] & ?).
  split_and!; [done..|].
  revert Hload. unfold loadPPM.
  destruct (file_contents w f) as [s|]; [|done].
  destruct (read_word s) as [magic rest]. case_decide; [|done].
  destruct (read_int rest) as [[width r1]|]; [|done].
  rewrite defined_Some, bind_ret.
  destruct (read_int r1) as [[height r2]|]; [|done].
  rewrite defined_Some, bind_ret.
  destruct (read_int r2) as [[maxVal r3]|]; [|done].
  rewrite defined_Some, bind_ret.
  destruct (_ && _); [|done].
  intros [= <- <- <-]. apply read_bytes_byte_cells.
Qed.

Lemma loadPPM_returns_whole_buffer_witness :
  ([] : list event) = [] ∧ 0 ≤ -1 * -1 * 3 ≤ Int.INT_MAX
  ∧ length [Def 97; Def 98; Def 99] = Z.to_nat (-1 * -1 * 3)
  ∧ Forall byte_cell [Def 97; Def 98; Def 99].
Proof.
  apply (loadPPM_returns_whole_buffer
           (World (λ _, Some (ppm_text (-1) (-1) 255 "abc"))
                  (λ _, true) (λ _ _, None))
           "img1.ppm" [] [Def 97; Def 98; Def 99] (-1) (-1)).
  reflexivity.
Defined.

Lemma read_word_all_space s :
  all_space s = true → (read_word s).1 = EmptyString.
Proof.
  unfold read_word. induction s as [|a s IH]; [done|].
  cbn [all_space]. intros [Ha Hs]%andb_true_iff.
  cbn [skip_ws]. rewrite Ha. by apply IH.
Qed.

(** X11. For an input file that cannot be opened, or that is empty or blank,
    or whose first word is not [P6], the loop body of [main] ends by the
    exception of [loadPPM], with its message, before any CUDA call and
    without any output. *)
Theorem processImage_rejected_input
    (c : fp_contract) (w : world) (f : string) :
  match file_contents w f with
  | None => True
  | Some s => all_space s = true ∨ (read_word s).1 ≠ "P6"
  end →
  processImage c w f
  = ([], Throw match file_contents w f with
               | None => "Unable to open file " +:+ f
               | Some _ => "Invalid PPM file"
               end).
Proof.
  intros Hbad. unfold processImage, loadPPM.
  destruct (file_contents w f) as [s|]; [|done].
  assert (Hmagic : (read_word s).1 ≠ "P6").
  { destruct Hbad as [Hblank|]; [|done].
    by rewrite (read_word_all_space s Hblank). }
  destruct (read_word s) as [magic rest]. simpl in Hmagic.
  by case_decide.
Qed.

Lemma processImage_rejected_input_witness :
  processImage fp_strict world_without_img3 "img3.ppm"
  = ([], Throw match file_contents world_without_img3 "img3.ppm" with
               | None => "Unable to open file " +:+ "img3.ppm"
               | Some _ => "Invalid PPM file"
               end).
Proof.
  apply (processImage_rejected_input fp_strict world_without_img3 "img3.ppm").
  exact I.
Defined.

Lemma ignore_line s : ignore 256 "010"%char (nl +:+ s) = s.
Proof. done. Qed.

(** X12. A file in the usual layout of a binary PPM loads to its sizes and
    its samples: the first [width * height * 3] characters after the
    header, as bytes, in order; where the file ends early the remaining
    cells are indeterminate. The maximum sample value is read and not
    used. *)
Theorem loadPPM_reads_ppm_text
    (w : world) (f : string) (W H maxVal : Z) (data : string) :
  file_contents w f = Some (ppm_text W H maxVal data) →
  0 ≤ W ≤ Int.INT_MAX → 0 ≤ H ≤ Int.INT_MAX → 0 ≤ maxVal ≤ Int.INT_MAX →
  W * H * 3 ≤ Int.INT_MAX →
  loadPPM w f
  = ([], Ret ((cell_of_ascii
                 <$> take (Z.to_nat (W * H * 3)) (list_ascii_of_string data))
              ++ replicate (Z.to_nat (W * H * 3) - String.length data) Indet,
              W, H)).
Proof.
  intros Hfile HW HH Hmax H3. unfold loadPPM. rewrite Hfile.
  unfold ppm_text.
  change (read_word ("P6" +:+ nl +:+ ?s)) with ("P6"%string, nl +:+ s).
  cbv beta iota. rewrite decide_True by done.
  rewrite (read_int_skip_ws nl), read_int_pretty by done.
  rewrite defined_Some, bind_ret.
  rewrite (read_int_skip_ws " "), read_int_pretty by done.
  rewrite defined_Some, bind_ret.
  rewrite (read_int_skip_ws nl), read_int_pretty by done.
  rewrite defined_Some, bind_ret.
  rewrite ignore_line, (proj2 (Z.leb_le 0 _)) by lia.
  rewrite (proj2 (Z.leb_le _ Int.INT_MAX)) by done. cbn [andb].
  by rewrite read_bytes_spec.
Qed.

Lemma loadPPM_reads_ppm_text_witness :
  loadPPM (World (λ _, Some (ppm_text 1 1 255 "abcd")) (λ _, true)
             (λ _ _, None)) "img1.ppm"
  = ([], Ret ((cell_of_ascii
                 <$> take (Z.to_nat (1 * 1 * 3)) (list_ascii_of_string "abcd"))
              ++ replicate (Z.to_nat (1 * 1 * 3) - String.length "abcd") Indet,
              1, 1)).
Proof.
  apply (loadPPM_reads_ppm_text
           (World (λ _, Some (ppm_text 1 1 255 "abcd")) (λ _, true)
              (λ _ _, None)) "img1.ppm" 1 1 255 "abcd");
    [reflexivity | vm_compute; split; congruence..| vm_compute; congruence].
Defined.

(** ** Saving an image, and naming it *)

(** X13. [loadPPM] does not accept what [savePGM] writes: a file that
    starts with the header of a saved image is refused as an invalid PPM
    file, the magic being [P5]. *)
Theorem savePGM_output_not_loadable
    (w w' : world) (name f rest : string) (data : buffer) (W H : Z)
    (p : pgm_file) :
  savePGM w name data W H = ([WriteFile name p], Ret tt) →
  file_contents w' f = Some (pgm_header p +:+ rest) →
  loadPPM w' f = ([], Throw "Invalid PPM file").
Proof.
  unfold savePGM. destruct (can_create w name); [|done].
  case_decide; [|done]. intros [= <-]. cbn [pgm_header].
  intros Hfile. unfold loadPPM. rewrite Hfile.
  rewrite !append_assoc.
  change (read_word ("P5" +:+ nl +:+ ?s)) with ("P5"%string, nl +:+ s).
  cbv beta iota. by rewrite decide_False.
Qed.

Lemma savePGM_output_not_loadable_witness :
  loadPPM (World (λ _, Some (("P5" +:+ nl +:+ pretty 1 +:+ " " +:+ pretty 1
                                +:+ nl +:+ "255" +:+ nl) +:+ "n"))
             (λ _, true) (λ _ _, None)) "img1.ppm"
  = ([], Throw "Invalid PPM file").
Proof.
  apply (savePGM_output_not_loadable (uniform_world 1 1 "d"%char)
           (World (λ _, Some (("P5" +:+ nl +:+ pretty 1 +:+ " " +:+ pretty 1
                                 +:+ nl +:+ "255" +:+ nl) +:+ "n"))
              (λ _, true) (λ _ _, None))
           "out.pgm" "img1.ppm" "n" [Def 110] 1 1
           (PgmFile ("P5" +:+ nl +:+ pretty 1 +:+ " " +:+ pretty 1
                       +:+ nl +:+ "255" +:+ nl) [Def 110]));
    reflexivity.
Defined.

Lemma find_last_of_app c base ext :
  find_last_of c ext = None →
  find_last_of c (base +:+ String c ext) = Some (String.length base).
Proof.
  intros Hext. induction base as [|a base IH].
  - rewrite append_nil_l. cbn [find_last_of]. rewrite Hext.
    by rewrite decide_True.
  - rewrite append_cons. cbn [find_last_of String.length]. by rewrite IH.
Qed.

Lemma substring_prefix base s :
  substring 0 (String.length base) (base +:+ s) = base.
Proof.
  induction base as [|a base IH].
  - rewrite append_nil_l. by destruct s.
  - rewrite append_cons. cbn [String.length substring]. by rewrite IH.
Qed.

(** X14. The output name: what follows the last dot of the input name is
    replaced by [_cropped_adjusted.pgm] and the result is put under
    [processed_images/]; a name without a dot is kept whole. Two inputs that
    differ only after the last dot are therefore written to the same
    file. *)
Theorem outputFilename_replaces_extension (base ext : string) :
  find_last_of "."%char ext = None →
  outputFilename (base +:+ "." +:+ ext)
    = "processed_images/" +:+ base +:+ "_cropped_adjusted.pgm"
  ∧ outputFilename ext
    = "processed_images/" +:+ ext +:+ "_cropped_adjusted.pgm".
Proof.
  intros Hext. unfold outputFilename, outputDir. split.
  - change ("." +:+ ext) with (String "."%char ext).
    rewrite (find_last_of_app "."%char base ext Hext). cbn [substr0].
    by rewrite substring_prefix.
  - by rewrite Hext.
Qed.

Lemma outputFilename_replaces_extension_witness :
  outputFilename ("photo.v2" +:+ "." +:+ "ppm")
    = "processed_images/" +:+ "photo.v2" +:+ "_cropped_adjusted.pgm"
  ∧ outputFilename "ppm"
    = "processed_images/" +:+ "ppm" +:+ "_cropped_adjusted.pgm".
Proof.
  apply (outputFilename_replaces_extension "photo.v2" "ppm"). reflexivity.
Defined.

(** ** The crop window of a landscape image *)

(** X15. For an image at least as wide as it is tall, the window [main]
    passes to the crop is [H] by [H], starts in row 0, lies inside the
    image and is centred along the width: the margin on the right is the
    margin on the left, or one more. *)
Theorem main_crop_args_landscape (W H : Z) :
  0 < H → H ≤ W → W ≤ Int.INT_MAX →
  dstWidth (main_crop_args W H) = H
  ∧ dstHeight (main_crop_args W H) = H
  ∧ offsetY (main_crop_args W H) = 0
  ∧ 0 ≤ offsetX (main_crop_args W H)
  ∧ offsetX (main_crop_args W H) + dstWidth (main_crop_args W H) ≤ W
  ∧ 0 ≤ (W - (offsetX (main_crop_args W H) + H))
        - offsetX (main_crop_args W H) ≤ 1.
Proof.
  intros HH HW Hmax. rewrite main_crop_args_eq by lia.
  cbn [dstWidth dstHeight offsetX offsetY].
  rewrite Z.min_r, Z.max_l by lia.
  pose proof (Z.div_mod (W - H) 2 ltac:(lia)).
  pose proof (Z.mod_pos_bound (W - H) 2 ltac:(lia)).
  split_and!; lia.
Qed.

Lemma main_crop_args_landscape_witness :
  dstWidth (main_crop_args 7 2) = 2
  ∧ dstHeight (main_crop_args 7 2) = 2
  ∧ offsetY (main_crop_args 7 2) = 0
  ∧ 0 ≤ offsetX (main_crop_args 7 2)
  ∧ offsetX (main_crop_args 7 2) + dstWidth (main_crop_args 7 2) ≤ 7
  ∧ 0 ≤ (7 - (offsetX (main_crop_args 7 2) + 2))
        - offsetX (main_crop_args 7 2) ≤ 1.
Proof.
  apply (main_crop_args_landscape 7 2); [lia | lia | vm_compute; congruence].
Defined.

(** ** Every run of [main] *)

Lemma silent_defined {A} (o : option A) : silent (defined o).
Proof. by destruct o. Qed.

Lemma silent_bind {A B} (m : M A) (k : A → M B) :
  silent m → (∀ a, silent (k a)) → silent (m ≫= k).
Proof.
  destruct m as [tr [a| | |]]; simpl; intros Hm Hk; try done.
  subst tr. specialize (Hk a). by destruct (k a).
Qed.

Lemma silent_check {A} w f n (r : M A) :
  silent r → silent (checkCudaErrors w f n r).
Proof.
  intros Hr. unfold checkCudaErrors. destruct (cuda_fails w f n); [|done].
  simpl. split; [done|]. by eexists.
Qed.

Lemma silent_loadPPM w f : silent (loadPPM w f).
Proof.
  unfold loadPPM. destruct (file_contents w f) as [s|]; [|done].
  destruct (read_word s) as [magic rest]. case_decide; [|done].
  apply silent_bind; [apply silent_defined|]. intros [width r1].
  apply silent_bind; [apply silent_defined|]. intros [height r2].
  apply silent_bind; [apply silent_defined|]. intros [maxVal r3].
  by destruct (_ && _).
Qed.

Lemma image_events_bind {A} f (m : M A) (k : A → M unit) :
  silent m → (∀ a, image_events f (k a)) → image_events f (m ≫= k).
Proof.
  destruct m as [tr [a| | |]]; simpl; intros Hm Hk; try done.
  subst tr. specialize (Hk a). by destruct (k a).
Qed.

Lemma image_events_save w f data width height :
  image_events f
    (savePGM w (outputFilename f) data width height;;
     emit (Stdout ("Saved image: " +:+ outputFilename f +:+ nl))).
Proof.
  unfold savePGM. destruct (can_create w _); [|done].
  case_decide; [|done]. simpl. by eexists.
Qed.

Lemma processImage_events c w f : image_events f (processImage c w f).
Proof.
  unfold processImage.
  apply image_events_bind; [apply silent_loadPPM|].
  intros [[h_rgb width] height]. lazy zeta.
  repeat (apply image_events_bind;
          [first [apply silent_check;
                    first [by apply (silent_defined (Some _))
                          | apply silent_defined]
                 | apply silent_defined]
          | intros ?]).
  apply image_events_save.
Qed.

Lemma for_each_Ret (body : string → M unit) l :
  (for_each l body).2 = Ret tt → Forall (λ g, (body g).2 = Ret tt) l.
Proof.
  induction l as [|x l IH]; [constructor|].
  cbn [for_each]. destruct (body x) as [tr [[]| | |]] eqn:E; try done.
  cbn. destruct (for_each l body) as [tr' r'] eqn:E'. cbn in *.
  intros ->. constructor; [by rewrite E|by apply IH].
Qed.

(** The events of the loop over a list of input files. *)
Lemma for_each_events c w l :
  written_files (for_each l (processImage c w)).1
    `prefix_of` (outputFilename <$> l)
  ∧ match (for_each l (processImage c w)).2 with
    | Ret _ | Throw _ | Unmodelled =>
        stderr_lines (for_each l (processImage c w)).1 = []
    | Exit s =>
        s = EXIT_FAILURE
        ∧ ∃ d, stderr_lines (for_each l (processImage c w)).1 = [d]
    end.
Proof.
  induction l as [|x l [IHw IHe]]; [split; [apply prefix_nil|done]|].
  cbn [for_each]. pose proof (processImage_events c w x) as Hx.
  destruct (processImage c w x) as [tr [[]| what | s |]]; cbn in Hx |- *.
  - destruct Hx as [content ->].
    destruct (for_each l (processImage c w)) as [tr' r']. cbn in *.
    split; [by apply prefix_cons|]. exact IHe.
  - subst tr. split; [apply prefix_nil|done].
  - destruct Hx as [-> [d ->]]. split; [apply prefix_nil|].
    split; [done|]. by exists d.
  - subst tr. split; [apply prefix_nil|done].
Qed.

(** X16. Unless it runs into behaviour the embedding does not cover
    (undefined behaviour, a failed stream), [main] ends through [exit],
    with the status of success or of failure: it does not return and lets
    no exception out. The status is that of success exactly when every
    input file was processed to the end. *)
Theorem main_exit_status (c : fp_contract) (w : world) (argv0 : string) :
  ((main c w argv0).2 = Exit EXIT_SUCCESS
   ↔ Forall (image_done c w) inputFiles)
  ∧ match (main c w argv0).2 with
    | Exit s => s = EXIT_SUCCESS ∨ s = EXIT_FAILURE
    | Unmodelled => True
    | Ret _ | Throw _ => False
    end.
Proof.
  pose proof (for_each_Ret (processImage c w) inputFiles) as Hret.
  pose proof (for_each_done (processImage c w) inputFiles) as Hdone.
  pose proof (for_each_events c w inputFiles) as [_ Hev].
  unfold main.
  destruct (for_each inputFiles (processImage c w)) as [tr r].
  cbn [snd fst] in *.
  destruct r as [[]| what | s |]; cbn.
  - split; [|by left]. split; [intros _; by apply Hret|done].
  - split; [|by right]. split; [done|].
    intros Hall. by specialize (Hdone Hall).
  - destruct Hev as [-> _]. split; [|by right]. split; [done|].
    intros Hall. by specialize (Hdone Hall).
  - split; [|done]. split; [done|].
    intros Hall. by specialize (Hdone Hall).
Qed.

(** X17. In every run, the files [main] writes are the outputs of the first
    input files, in the order of the list and one for each: it writes to no
    other path and to none twice. At most one line goes to the error
    stream. *)
Theorem main_writes_only_outputs
    (c : fp_contract) (w : world) (argv0 : string) :
  written_files (main c w argv0).1 `prefix_of` (outputFilename <$> inputFiles)
  ∧ (length (stderr_lines (main c w argv0).1) ≤ 1)%nat.
Proof.
  pose proof (for_each_events c w inputFiles) as [Hw He].
  unfold main.
  destruct (for_each inputFiles (processImage c w)) as [tr r].
  cbn [snd fst] in *. unfold written_files, stderr_lines in *.
  destruct r as [[]| what | s |]; cbn -[inputFiles];
    rewrite ?omap_app, ?(right_id_L [] (++)); cbn -[inputFiles];
    rewrite ?(right_id_L [] (++)).
  - rewrite He. split; [done|cbn; lia].
  - rewrite He. split; [done|cbn; lia].
  - destruct He as [_ [d ->]]. split; [done|cbn; lia].
  - rewrite He. split; [done|cbn; lia].
Qed.

(** ** From the input file to the output file *)

Lemma lookup_list_ascii_of_string s n :
  list_ascii_of_string s !! n = get n s.
Proof.
  revert n. induction s as [|a s IH]; intros [|n]; cbn; try done.
Qed.

Lemma length_list_ascii_of_string s :
  length (list_ascii_of_string s) = String.length s.
Proof. induction s as [|a s IH]; cbn; [done|]. by rewrite IH. Qed.

(** [loadPPM] on a file in the usual layout that holds all its samples. *)
Lemma loadPPM_ppm_text_complete w f W H maxVal data :
  file_contents w f = Some (ppm_text W H maxVal data) →
  0 ≤ W ≤ Int.INT_MAX → 0 ≤ H ≤ Int.INT_MAX → 0 ≤ maxVal ≤ Int.INT_MAX →
  W * H * 3 ≤ Int.INT_MAX →
  (Z.to_nat (W * H * 3) ≤ String.length data)%nat →
  loadPPM w f
  = ([], Ret (cell_of_ascii
                <$> take (Z.to_nat (W * H * 3)) (list_ascii_of_string data),
              W, H)).
Proof.
  intros Hfile HW HH Hmax H3 Hlen. unfold loadPPM. rewrite Hfile.
  unfold ppm_text.
  change (read_word ("P6" +:+ nl +:+ ?s)) with ("P6"%string, nl +:+ s).
  cbv beta iota. rewrite decide_True by done.
  rewrite (read_int_skip_ws nl), read_int_pretty by done.
  rewrite defined_Some, bind_ret.
  rewrite (read_int_skip_ws " "), read_int_pretty by done.
  rewrite defined_Some, bind_ret.
  rewrite (read_int_skip_ws nl), read_int_pretty by done.
  rewrite defined_Some, bind_ret.
  rewrite ignore_line, (proj2 (Z.leb_le 0 _)) by lia.
  rewrite (proj2 (Z.leb_le _ Int.INT_MAX)) by done. cbn [andb].
  rewrite read_bytes_spec.
  replace (Z.to_nat (W * H * 3) - String.length data)%nat with 0%nat by lia.
  cbn [replicate]. by rewrite (right_id_L [] (++)).
Qed.

(** X18. From file to file: for an input file in the usual PPM layout with
    positive sizes and all its samples, when no CUDA call fails and the
    output can be written, the loop body writes one PGM file with the
    header [P5], the side [min W H] twice and 255, whose pixel (x, y) is
    the adjusted luminance of the three samples found at position
    [y * W + x + offset] of the input, with
    [offset = (max W H - min W H) / 2]. *)
Theorem processImage_on_ppm_text
    (c : fp_contract) (w : world) (f : string) (W H maxVal : Z)
    (data : string) :
  file_contents w f = Some (ppm_text W H maxVal data) →
  0 < W → 0 < H → W * H * 3 ≤ Int.INT_MAX → 0 ≤ maxVal ≤ Int.INT_MAX →
  (Z.to_nat (W * H * 3) ≤ String.length data)%nat →
  (∀ n, cuda_fails w f n = None) →
  can_create w (outputFilename f) = true →
  ∃ out,
    processImage c w f
    = ([WriteFile (outputFilename f)
          (PgmFile ("P5" +:+ nl +:+ pretty (Z.min W H) +:+ " "
                      +:+ pretty (Z.min W H) +:+ nl +:+ "255" +:+ nl) out);
        Stdout ("Saved image: " +:+ outputFilename f +:+ nl)],
       Ret tt)
    ∧ length out = Z.to_nat (Z.min W H * Z.min W H)
    ∧ ∀ x y, 0 ≤ x < Z.min W H → 0 ≤ y < Z.min W H →
        ∃ r g b,
          let i := y * W + (x + (Z.max W H - Z.min W H) / 2) in
          get (Z.to_nat (i * 3 + 0)) data = Some r
          ∧ get (Z.to_nat (i * 3 + 1)) data = Some g
          ∧ get (Z.to_nat (i * 3 + 2)) data = Some b
          ∧ pixel out (Z.min W H) x y
            = Some (adjust_pixel
                      (rgbToGray_pixel c (cell_of_ascii r) (cell_of_ascii g)
                         (cell_of_ascii b))).
Proof.
  intros Hfile HW HH H3 Hmax Hlen Hcuda Hcreate.
  assert (Hload := loadPPM_ppm_text_complete w f W H maxVal data Hfile).
  unfold Int.INT_MAX in *.
  specialize (Hload ltac:(unfold Int.INT_MAX; nia)
                    ltac:(unfold Int.INT_MAX; nia) Hmax H3 Hlen).
  destruct (processImage_spec c w f _ W H Hload HW HH Hcuda Hcreate)
    as (out & Hrun & Hout & Hpix).
  exists out. split_and!; [done..|].
  intros x y Hx Hy.
  destruct (Hpix x y Hx Hy) as (r & g & b & Hr & Hg & Hb & Hp).
  unfold channel in Hr, Hg, Hb.
  rewrite list_lookup_fmap in Hr, Hg, Hb.
  apply fmap_Some in Hr as (ar & Hr & ->).
  apply fmap_Some in Hg as (ag & Hg & ->).
  apply fmap_Some in Hb as (ab & Hb & ->).
  apply lookup_take_Some in Hr as [Hr _], Hg as [Hg _], Hb as [Hb _].
  rewrite lookup_list_ascii_of_string in Hr, Hg, Hb.
  by exists ar, ag, ab.
Qed.

Lemma processImage_on_ppm_text_witness :
  ∃ out,
    processImage fp_strict
      (World (λ _, Some (ppm_text 1 1 255 "abcd")) (λ _, true) (λ _ _, None))
      "img1.ppm"
    = ([WriteFile (outputFilename "img1.ppm")
          (PgmFile ("P5" +:+ nl +:+ pretty (Z.min 1 1) +:+ " "
                      +:+ pretty (Z.min 1 1) +:+ nl +:+ "255" +:+ nl) out);
        Stdout ("Saved image: " +:+ outputFilename "img1.ppm" +:+ nl)],
       Ret tt)
    ∧ length out = Z.to_nat (Z.min 1 1 * Z.min 1 1)
    ∧ ∀ x y, 0 ≤ x < Z.min 1 1 → 0 ≤ y < Z.min 1 1 →
        ∃ r g b,
          let i := y * 1 + (x + (Z.max 1 1 - Z.min 1 1) / 2) in
          get (Z.to_nat (i * 3 + 0)) "abcd" = Some r
          ∧ get (Z.to_nat (i * 3 + 1)) "abcd" = Some g
          ∧ get (Z.to_nat (i * 3 + 2)) "abcd" = Some b
          ∧ pixel out (Z.min 1 1) x y
            = Some (adjust_pixel
                      (rgbToGray_pixel fp_strict (cell_of_ascii r)
                         (cell_of_ascii g) (cell_of_ascii b))).
Proof.
  apply (processImage_on_ppm_text fp_strict
           (World (λ _, Some (ppm_text 1 1 255 "abcd")) (λ _, true)
              (λ _ _, None)) "img1.ppm" 1 1 255 "abcd").
  - reflexivity.
  - lia.
  - lia.
  - vm_compute; congruence.
  - vm_compute; split; congruence.
  - vm_compute; lia.
  - reflexivity.
  - reflexivity.
Defined.

Lemma length_string_of_list_ascii l :
  String.length (string_of_list_ascii l) = length l.
Proof.
  by rewrite <-length_list_ascii_of_string,
    list_ascii_of_string_of_list_ascii.
Qed.

(** X19. An image whose samples are all the same byte comes out as an image
    whose pixels are all the same: the adjusted luminance of that gray,
    for every positive size. On such an image the axis of the crop offset
    makes no difference. *)
Theorem processImage_uniform
    (c : fp_contract) (W H : Z) (v : ascii) (f : string) :
  0 < W → 0 < H → W * H * 3 ≤ Int.INT_MAX →
  processImage c (uniform_world W H v) f
  = ([WriteFile (outputFilename f)
        (PgmFile ("P5" +:+ nl +:+ pretty (Z.min W H) +:+ " "
                    +:+ pretty (Z.min W H) +:+ nl +:+ "255" +:+ nl)
           (replicate (Z.to_nat (Z.min W H * Z.min W H))
              (adjust_pixel
                 (rgbToGray_pixel c (cell_of_ascii v) (cell_of_ascii v)
                    (cell_of_ascii v)))));
      Stdout ("Saved image: " +:+ outputFilename f +:+ nl)],
     Ret tt).
Proof.
  intros HW HH H3.
  set (n := Z.to_nat (W * H * 3)).
  assert (Hload : loadPPM (uniform_world W H v) f
                  = ([], Ret (replicate n (cell_of_ascii v), W, H))).
  { rewrite (loadPPM_ppm_text_complete (uniform_world W H v) f W H 255
               (string_of_list_ascii (replicate n v))).
    - rewrite list_ascii_of_string_of_list_ascii.
      rewrite take_ge by (rewrite length_replicate; unfold n; lia).
      by rewrite fmap_replicate.
    - reflexivity.
    - unfold Int.INT_MAX in *. nia.
    - unfold Int.INT_MAX in *. nia.
    - by vm_compute.
    - done.
    - rewrite length_string_of_list_ascii, length_replicate. unfold n. lia. }
  destruct (processImage_spec c (uniform_world W H v) f _ W H Hload HW HH)
    as (out & Hrun & Hout & Hpix); [done..|].
  rewrite Hrun.
  enough (out = replicate (Z.to_nat (Z.min W H * Z.min W H))
                  (adjust_pixel
                     (rgbToGray_pixel c (cell_of_ascii v) (cell_of_ascii v)
                        (cell_of_ascii v)))) as -> by done.
  apply list_eq. intros i.
  destruct (decide (i < Z.to_nat (Z.min W H * Z.min W H))%nat) as [Hi|Hi].
  - rewrite lookup_replicate_2 by done.
    set (side := Z.min W H) in *.
    assert (0 < side) by (unfold side; lia).
    set (x := Z.of_nat i mod side). set (y := Z.of_nat i / side).
    assert (Hx : 0 ≤ x < side) by (apply Z.mod_pos_bound; lia).
    assert (Hy : 0 ≤ y < side).
    { split; [apply Z.div_pos; lia|].
      apply Z.div_lt_upper_bound; lia. }
    assert (Hi' : i = Z.to_nat (y * side + x)).
    { pose proof (Z.div_mod (Z.of_nat i) side). unfold x, y. lia. }
    destruct (Hpix x y Hx Hy) as (r & g & b & Hr & Hg & Hb & Hp).
    apply lookup_replicate in Hr as [-> _], Hg as [-> _], Hb as [-> _].
    unfold pixel in Hp. by rewrite Hi'.
  - rewrite !lookup_ge_None_2; [done| |].
    + rewrite length_replicate. lia.
    + rewrite Hout. lia.
Qed.

Lemma processImage_uniform_witness :
  processImage fp_strict (uniform_world 2 3 "d"%char) "img1.ppm"
  = ([WriteFile (outputFilename "img1.ppm")
        (PgmFile ("P5" +:+ nl +:+ pretty (Z.min 2 3) +:+ " "
                    +:+ pretty (Z.min 2 3) +:+ nl +:+ "255" +:+ nl)
           (replicate (Z.to_nat (Z.min 2 3 * Z.min 2 3))
              (adjust_pixel
                 (rgbToGray_pixel fp_strict (cell_of_ascii "d")
                    (cell_of_ascii "d") (cell_of_ascii "d")))));
      Stdout ("Saved image: " +:+ outputFilename "img1.ppm" +:+ nl)],
     Ret tt).
Proof.
  apply (processImage_uniform fp_strict 2 3 "d"%char "img1.ppm");
    [lia | lia | vm_compute; congruence].
Defined.

(** ** The output that cannot be written *)

(** With an image loaded and no failing CUDA call, the loop body comes to
    [savePGM] with a buffer of [min W H] squared cells. *)
Lemma processImage_reaches_save c w f h_rgb W H :
  loadPPM w f = ([], Ret (h_rgb, W, H)) →
  0 < W → 0 < H →
  (∀ n, cuda_fails w f n = None) →
  ∃ out,
    length out = Z.to_nat (Z.min W H * Z.min W H)
    ∧ processImage c w f
      = (savePGM w (outputFilename f) out (Z.min W H) (Z.min W H);;
         emit (Stdout ("Saved image: " +:+ outputFilename f +:+ nl))).
Proof.
  intros Hload HW HH Hcuda.
  set (side := Z.min W H). set (offset := (Z.max W H - Z.min W H) / 2).
  destruct (loadPPM_Ret _ _ _ _ _ _ Hload) as (_ & [_ H3] & Hrgb).
  pose proof (fits_int_rgb W H HW HH H3) as Hfit.
  pose proof Hfit as (_ & _ & HW' & HH' & HWH).
  assert (Hside : 0 < side ∧ side ≤ W ∧ side ≤ H) by (unfold side; lia).
  assert (Hss : side * side ≤ W * H) by (apply mul_le_mul; lia).
  assert (Hoff : 0 ≤ offset) by (apply Z.div_pos; lia).
  pose proof (Z.mul_nonneg_nonneg side side) as Hss0.
  unfold Int.INT_MAX in *.
  destruct (rgbToGrayKernel_pixels c h_rgb (cudaMalloc (W * H)) W H)
    as (gray & Hgray & Hgraylen & _);
    [done | done | done | done | apply length_new_uchar |].
  destruct (cropKernel_launch gray (cudaMalloc (side * side))
              W H side side offset 0)
    as (dst & Hdst & Hdstlen & _);
    [done | done | done | done | lia | lia | | apply length_new_uchar |].
  { intros x y Hx Hy. apply main_crop_index_bounds; done. }
  pose proof (adjustKernel_pixels dst W H side side Hfit) as Htone.
  specialize (Htone ltac:(lia) ltac:(lia) Hdstlen).
  exists (adjust_pixel <$> dst). split; [by rewrite length_fmap|].
  unfold processImage. rewrite Hload, bind_ret. lazy zeta.
  rewrite main_crop_args_eq by (unfold Int.INT_MAX; lia).
  cbn [dstWidth dstHeight offsetX offsetY].
  change (Z.min W H) with side.
  change ((Z.max W H - side) / 2) with offset.
  rewrite !(int_mul_small W H) by (unfold Int.INT_MAX; lia).
  rewrite !(int_mul_small (W * H) 3) by (unfold Int.INT_MAX; lia).
  rewrite !(int_mul_small side side) by (unfold Int.INT_MAX; lia).
  pipeline_steps.
  rewrite cudaMemcpy_full by (done || apply length_new_uchar).
  pipeline_steps. rewrite Hgray. pipeline_steps.
  rewrite (cudaMemcpy_full _ gray) by (done || apply length_new_uchar).
  pipeline_steps.
  rewrite (cudaMemcpy_full gray gray) by done.
  pipeline_steps. rewrite Hdst. pipeline_steps.
  rewrite Htone. pipeline_steps.
  rewrite cudaMemcpy_full
    by (rewrite ?length_fmap; done || apply length_new_uchar).
  by pipeline_steps.
Qed.

(** X20. When the output file cannot be opened for writing, the loop body
    ends by the exception of [savePGM], whose message names the output
    path; this happens after the whole computation, and nothing is written
    or printed for the image. *)
Theorem processImage_output_not_writable
    (c : fp_contract) (w : world) (f : string) (h_rgb : buffer) (W H : Z) :
  loadPPM w f = ([], Ret (h_rgb, W, H)) →
  0 < W → 0 < H →
  (∀ n, cuda_fails w f n = None) →
  can_create w (outputFilename f) = false →
  processImage c w f
  = ([], Throw ("Unable to open file " +:+ outputFilename f)).
Proof.
  intros Hload HW HH Hcuda Hcreate.
  destruct (processImage_reaches_save c w f h_rgb W H Hload HW HH Hcuda)
    as (out & _ & ->).
  unfold savePGM. by rewrite Hcreate.
Qed.

Lemma processImage_output_not_writable_witness :
  processImage fp_strict
    (World (λ _, Some (uniform_ppm 1 1 "d"%char)) (λ _, false) (λ _ _, None))
    "img1.ppm"
  = ([], Throw ("Unable to open file " +:+ outputFilename "img1.ppm")).
Proof.
  apply (processImage_output_not_writable fp_strict
           (World (λ _, Some (uniform_ppm 1 1 "d"%char)) (λ _, false)
              (λ _ _, None))
           "img1.ppm" [Def 100; Def 100; Def 100] 1 1);
    [reflexivity | lia | lia | reflexivity | reflexivity].
Defined.

(** ** Pixels of one channel *)

(** X21. On a pixel with a single channel that is not zero the stored
    luminance is the weighted value of that channel rounded down:
    [299 r / 1000], [587 g / 1000] and [114 b / 1000], under every
    contraction of the expression. *)
Theorem rgbToGray_single_channel (c : fp_contract) (v : Z) :
  0 ≤ v ≤ 255 →
  rgbToGray_pixel c (Def v) (Def 0) (Def 0) = Def (299 * v / 1000)
  ∧ rgbToGray_pixel c (Def 0) (Def v) (Def 0) = Def (587 * v / 1000)
  ∧ rgbToGray_pixel c (Def 0) (Def 0) (Def v) = Def (114 * v / 1000).
Proof.
  intros Hv.
  assert (Hall : forallb (λ c, forallb (gray_single_channel c) (seqZ 0 256))
                   all_contracts = true) by (vm_compute; reflexivity).
  rewrite forallb_forall in Hall.
  specialize (Hall c (proj1 (list_elem_of_In _ _) (all_contracts_complete c))).
  pose proof (forallb_seqZ _ 0 256 v Hall ltac:(lia)) as Hc.
  unfold gray_single_channel in Hc.
  apply andb_true_iff in Hc as [Hc Hb].
  apply andb_true_iff in Hc as [Hr Hg].
  split_and!; by apply cell_eqb_eq.
Qed.

Lemma rgbToGray_single_channel_witness :
  rgbToGray_pixel fp_strict (Def 255) (Def 0) (Def 0)
    = Def (299 * 255 / 1000)
  ∧ rgbToGray_pixel fp_strict (Def 0) (Def 255) (Def 0)
    = Def (587 * 255 / 1000)
  ∧ rgbToGray_pixel fp_strict (Def 0) (Def 0) (Def 255)
    = Def (114 * 255 / 1000).
Proof. apply (rgbToGray_single_channel fp_strict 255). lia. Defined.

(** ** The image without pixels *)

Lemma bind_nil_r {A B} (l : list A) : l ≫= (λ _, @nil B) = [].
Proof. induction l as [|x l IH]; [done|]. by rewrite bind_cons, IH. Qed.

(** A grid with no block launches no thread. *)
Lemma launch_no_threads k g b m :
  dim_x g = 0 ∨ dim_y g = 0 → launch k g b m = Some m.
Proof.
  intros Hg. unfold launch.
  enough (launch_threads g b = []) as -> by done.
  unfold launch_threads. destruct Hg as [-> | ->]; [|done].
  apply bind_nil_r.
Qed.

Lemma gridSize_zero W H :
  W = 0 ∨ H = 0 → dim_x (gridSize W H) = 0 ∨ dim_y (gridSize W H) = 0.
Proof. intros [-> | ->]; [by left|by right]. Qed.

(** X22. A file in the PPM layout whose width or height is 0 is not refused:
    with no failing CUDA call and a writable output, no thread is launched
    and an image of 0 by 0 pixels, a header without samples, is written. *)
Theorem processImage_empty_image
    (c : fp_contract) (w : world) (f : string) (W H maxVal : Z)
    (data : string) :
  file_contents w f = Some (ppm_text W H maxVal data) →
  0 ≤ W ≤ Int.INT_MAX → 0 ≤ H ≤ Int.INT_MAX → W = 0 ∨ H = 0 →
  0 ≤ maxVal ≤ Int.INT_MAX →
  (∀ n, cuda_fails w f n = None) →
  can_create w (outputFilename f) = true →
  processImage c w f
  = ([WriteFile (outputFilename f)
        (PgmFile ("P5" +:+ nl +:+ "0" +:+ " " +:+ "0" +:+ nl +:+ "255" +:+ nl)
           []);
      Stdout ("Saved image: " +:+ outputFilename f +:+ nl)],
     Ret tt).
Proof.
  intros Hfile HW HH Hzero Hmax Hcuda Hcreate.
  assert (HWH : W * H = 0) by (destruct Hzero as [-> | ->]; lia).
  assert (Hmin : Z.min W H = 0) by lia.
  pose proof (gridSize_zero W H Hzero) as Hgrid.
  assert (Hload : loadPPM w f = ([], Ret ([], W, H))).
  { rewrite (loadPPM_ppm_text_complete w f W H maxVal data);
      rewrite ?HWH; try done.
    cbn. lia. }
  unfold processImage. rewrite Hload, bind_ret. lazy zeta.
  unfold main_crop_args. cbn [dstWidth dstHeight offsetX offsetY].
  rewrite !Hmin.
  rewrite !(int_mul_small W H) by (rewrite HWH; done).
  rewrite !HWH.
  change (Int.mul 0 3) with 0. change (Int.mul 0 0) with 0.
  change (cudaMalloc 0) with (@nil cell).
  change (new_uchar 0) with (@nil cell).
  repeat first
    [ progress pipeline_steps
    | rewrite launch_no_threads by done
    | rewrite (cudaMemcpy_full [] [] 0) by done ].
  unfold savePGM. rewrite Hcreate.
  change (Int.mul 0 0) with 0. by rewrite decide_True by (cbn; lia).
Qed.

Lemma processImage_empty_image_witness :
  processImage fp_strict
    (World (λ _, Some (ppm_text 0 7 255 "")) (λ _, true) (λ _ _, None))
    "img1.ppm"
  = ([WriteFile (outputFilename "img1.ppm")
        (PgmFile ("P5" +:+ nl +:+ "0" +:+ " " +:+ "0" +:+ nl +:+ "255" +:+ nl)
           []);
      Stdout ("Saved image: " +:+ outputFilename "img1.ppm" +:+ nl)],
     Ret tt).
Proof.
  apply (processImage_empty_image fp_strict
           (World (λ _, Some (ppm_text 0 7 255 "")) (λ _, true) (λ _ _, None))
           "img1.ppm" 0 7 255 "").
  - reflexivity.
  - vm_compute; split; congruence.
  - vm_compute; split; congruence.
  - by left.
  - vm_compute; split; congruence.
  - reflexivity.
  - reflexivity.
Defined.
